(** * LRU range-sum cache and splay-tree memoisation

    A shallow embedding of [task_1.py] (an [OrderedDict]-backed LRU cache
    placed in front of inclusive range sums over a mutable list) and of
    [task_2.py] (a recursive splay tree used as the memo table of a
    Fibonacci function), followed by the properties proved about them.

    Python integers are unbounded, so they are modelled by [Z].  Every
    Python call is modelled by a computation that returns either a value or
    the exception it raises, together with the state of the mutated object
    at that moment. *)

From Stdlib Require Import ZArith List Bool Lia Sorting.Sorted.
Import ListNotations.
Local Open Scope Z_scope.

(** ** Outcomes of a Python call *)

Inductive exn : Type :=
| IndexError
| KeyError
| AttributeError
| RecursionError.

Inductive res (A : Type) : Type :=
| Ok (a : A)
| Raise (e : exn).

Arguments Ok {A} a.
Arguments Raise {A} e.

Definition res_bind {A B : Type} (c : res A) (k : A -> res B) : res B :=
  match c with
  | Ok a => k a
  | Raise e => Raise e
  end.

(** A method call on an object whose state has type [S]: the state after
    the call is returned also when the call raises, so that "raised before
    any mutation" can be told apart from "raised half-way". *)
Definition M (S A : Type) : Type := S -> res A * S.

Definition ret {S A : Type} (a : A) : M S A := fun s => (Ok a, s).

Definition raise {S A : Type} (e : exn) : M S A := fun s => (Raise e, s).

Definition bind {S A B : Type} (c : M S A) (k : A -> M S B) : M S B :=
  fun s =>
    match c s with
    | (Ok a, s') => k a s'
    | (Raise e, s') => (Raise e, s')
    end.

Definition get_state {S : Type} : M S S := fun s => (Ok s, s).

Definition put_state {S : Type} (s : S) : M S unit := fun _ => (Ok tt, s).

Declare Scope py_scope.
Delimit Scope py_scope with py.
Notation "x <- c ;; k" := (bind c (fun x => k))
  (at level 61, c at next level, right associativity) : py_scope.
Notation "c ;; k" := (bind c (fun _ => k))
  (at level 61, right associativity) : py_scope.
Notation "x <-- c ;; k" := (res_bind c (fun x => k))
  (at level 61, c at next level, right associativity) : py_scope.
Local Open Scope py_scope.

(** [for x in xs: body(x)] *)
Fixpoint for_each {S A : Type} (xs : list A) (body : A -> M S unit) : M S unit :=
  match xs with
  | [] => ret tt
  | x :: xs' => body x ;; for_each xs' body
  end.

(** ** Python lists of integers *)

Module PyList.

Definition len (a : list Z) : Z := Z.of_nat (length a).

(** Normalisation of one slice bound, as [list.__getitem__] does for a
    slice with step 1: a negative bound counts from the end, and the
    result is clipped to [0, len]. *)
Definition clip (n i : Z) : Z :=
  if i <? 0 then Z.max 0 (i + n) else Z.min i n.

(** [a[start:stop]]; never raises. *)
Definition slice (a : list Z) (start stop : Z) : list Z :=
  let s := clip (len a) start in
  let e := clip (len a) stop in
  firstn (Z.to_nat (e - s)) (skipn (Z.to_nat s) a).

(** [sum(a)] *)
Definition sum (a : list Z) : Z := fold_left Z.add a 0.

Fixpoint set_nth (a : list Z) (i : nat) (v : Z) : list Z :=
  match a, i with
  | [], _ => []
  | _ :: a', O => v :: a'
  | x :: a', S i' => x :: set_nth a' i' v
  end.

(** [a[index] = value]: a negative index counts from the end; an index
    outside [-len, len) raises [IndexError] and leaves the list alone. *)
Definition setitem (index value : Z) : M (list Z) unit :=
  fun a =>
    let n := len a in
    if (- n <=? index) && (index <? n)
    then (Ok tt, set_nth a (Z.to_nat (if index <? 0 then index + n else index)) value)
    else (Raise IndexError, a).

End PyList.

(** ** [collections.OrderedDict] with keys [(L, R)] and integer values

    An association list in insertion order: the head is the oldest entry,
    the last element the newest.  [None] stands for [KeyError]. *)

Module OrderedDict.

Definition key : Type := Z * Z.

Definition key_eqb (a b : key) : bool :=
  (fst a =? fst b) && (snd a =? snd b).

Definition t : Type := list (key * Z).

Definition len (d : t) : Z := Z.of_nat (length d).

Definition keys (d : t) : list key := map fst d.

(** [d[k]] *)
Fixpoint getitem (k : key) (d : t) : option Z :=
  match d with
  | [] => None
  | (k', v) :: d' => if key_eqb k k' then Some v else getitem k d'
  end.

(** [k in d] *)
Definition contains (k : key) (d : t) : bool :=
  match getitem k d with
  | Some _ => true
  | None => false
  end.

(** [d[k] = v]: an existing key keeps its position, a new one goes last. *)
Fixpoint setitem (k : key) (v : Z) (d : t) : t :=
  match d with
  | [] => [(k, v)]
  | (k', v') :: d' =>
      if key_eqb k k' then (k', v) :: d' else (k', v') :: setitem k v d'
  end.

(** [del d[k]] *)
Fixpoint delitem (k : key) (d : t) : option t :=
  match d with
  | [] => None
  | (k', v') :: d' =>
      if key_eqb k k' then Some d'
      else match delitem k d' with
           | Some d'' => Some ((k', v') :: d'')
           | None => None
           end
  end.

(** [d.move_to_end(k)] *)
Definition move_to_end (k : key) (d : t) : option t :=
  match getitem k d, delitem k d with
  | Some v, Some d' => Some (d' ++ [(k, v)])
  | _, _ => None
  end.

(** [d.popitem(last=False)], the popped pair dropped. *)
Definition popitem_first (d : t) : option t :=
  match d with
  | [] => None
  | _ :: d' => Some d'
  end.

End OrderedDict.

(** ** [class LRUCache] *)

Module LRUCache.

Record t : Type := mk { capacity : Z; cache : OrderedDict.t }.

(** [LRUCache(capacity)]: stores its argument and an empty dictionary. *)
Definition __init__ (capacity : Z) : res t :=
  Ok {| capacity := capacity; cache := [] |}.

(** Run a dictionary operation on [self.cache]; [KeyError] leaves it
    as it was. *)
Definition on_cache (f : OrderedDict.t -> option OrderedDict.t) : M t unit :=
  fun self =>
    match f (cache self) with
    | Some d => (Ok tt, {| capacity := capacity self; cache := d |})
    | None => (Raise KeyError, self)
    end.

Definition get (key : OrderedDict.key) : M t (option Z) :=
  self <- get_state ;;
  if negb (OrderedDict.contains key (cache self)) then ret None
  else
    on_cache (OrderedDict.move_to_end key) ;;
    self <- get_state ;;
    match OrderedDict.getitem key (cache self) with
    | Some v => ret (Some v)
    | None => raise KeyError
    end.

Definition put (key : OrderedDict.key) (value : Z) : M t unit :=
  on_cache (fun d => Some (OrderedDict.setitem key value d)) ;;
  on_cache (OrderedDict.move_to_end key) ;;
  self <- get_state ;;
  if OrderedDict.len (cache self) >? capacity self
  then on_cache OrderedDict.popitem_first
  else ret tt.

Definition invalidate (condition_func : OrderedDict.key -> bool) : M t unit :=
  self <- get_state ;;
  let keys_to_remove := filter condition_func (OrderedDict.keys (cache self)) in
  for_each keys_to_remove (fun k => on_cache (OrderedDict.delitem k)).

End LRUCache.

(** ** Range sums, without and with the cache *)

(** The no-cache functions act on the list alone. *)
Definition range_sum_no_cache (L R : Z) : M (list Z) Z :=
  array <- get_state ;;
  ret (PyList.sum (PyList.slice array L (R + 1))).

Definition update_no_cache (index value : Z) : M (list Z) unit :=
  PyList.setitem index value.

(** The cached functions act on the list and on the cache object. *)
Record store : Type := mkStore { array : list Z; lru_cache : LRUCache.t }.

Definition with_array {A : Type} (c : M (list Z) A) : M store A :=
  fun s =>
    let (r, a) := c (array s) in
    (r, {| array := a; lru_cache := lru_cache s |}).

Definition with_lru {A : Type} (c : M LRUCache.t A) : M store A :=
  fun s =>
    let (r, l) := c (lru_cache s) in
    (r, {| array := array s; lru_cache := l |}).

Definition range_sum_with_cache (L R : Z) : M store Z :=
  cached_value <- with_lru (LRUCache.get (L, R)) ;;
  match cached_value with
  | Some v => ret v
  | None =>
      s <- with_array (a <- get_state ;; ret (PyList.sum (PyList.slice a L (R + 1)))) ;;
      with_lru (LRUCache.put (L, R) s) ;;
      ret s
  end.

Definition update_with_cache (index value : Z) : M store unit :=
  with_array (PyList.setitem index value) ;;
  let condition (key : OrderedDict.key) :=
    let (L, R) := key in (L <=? index) && (index <=? R) in
  with_lru (LRUCache.invalidate condition).

(** The two query loops of [main], with the sums they compute collected. *)
Inductive query : Type :=
| Range (L R : Z)
| Update (index value : Z).

Fixpoint run_no_cache (queries : list query) : M (list Z) (list Z) :=
  match queries with
  | [] => ret []
  | Range L R :: qs =>
      x <- range_sum_no_cache L R ;;
      xs <- run_no_cache qs ;;
      ret (x :: xs)
  | Update idx val :: qs =>
      update_no_cache idx val ;;
      run_no_cache qs
  end.

Fixpoint run_with_cache (queries : list query) : M store (list Z) :=
  match queries with
  | [] => ret []
  | Range L R :: qs =>
      x <- range_sum_with_cache L R ;;
      xs <- run_with_cache qs ;;
      ret (x :: xs)
  | Update idx val :: qs =>
      update_with_cache idx val ;;
      run_with_cache qs
  end.

(** ** [class SplayNode] and [class SplayTree]

    A node owns its two subtrees exclusively, so the mutable node graph is
    modelled by an immutable tree; [Nil] is Python's [None]. *)

Inductive tree : Type :=
| Nil
| SplayNode (key value : Z) (left right : tree).

(** [x.left] is read first: on [None], or on a node without a left child
    ([y.right] of [None]), Python raises [AttributeError]. *)
Definition _right_rotate (x : tree) : res tree :=
  match x with
  | SplayNode xk xv (SplayNode yk yv yl yr) xr =>
      Ok (SplayNode yk yv yl (SplayNode xk xv yr xr))
  | _ => Raise AttributeError
  end.

Definition _left_rotate (x : tree) : res tree :=
  match x with
  | SplayNode xk xv xl (SplayNode yk yv yl yr) =>
      Ok (SplayNode yk yv (SplayNode xk xv xl yl) yr)
  | _ => Raise AttributeError
  end.

Fixpoint _splay (root : tree) (key : Z) {struct root} : res tree :=
  match root with
  | Nil => Ok Nil
  | SplayNode rk rv l r =>
      if rk =? key then Ok root
      else if key <? rk then
        match l with
        | Nil => Ok root
        | SplayNode lk lv ll lr =>
            root1 <--
              (if key <? lk then
                 ll' <-- _splay ll key ;;
                 _right_rotate (SplayNode rk rv (SplayNode lk lv ll' lr) r)
               else if key >? lk then
                 lr' <-- _splay lr key ;;
                 match lr' with
                 | Nil => Ok (SplayNode rk rv (SplayNode lk lv ll lr') r)
                 | SplayNode _ _ _ _ =>
                     l' <-- _left_rotate (SplayNode lk lv ll lr') ;;
                     Ok (SplayNode rk rv l' r)
                 end
               else Ok root) ;;
            match root1 with
            | Nil => Raise AttributeError
            | SplayNode _ _ Nil _ => Ok root1
            | SplayNode _ _ (SplayNode _ _ _ _) _ => _right_rotate root1
            end
        end
      else
        match r with
        | Nil => Ok root
        | SplayNode xk xv rl rr =>
            root1 <--
              (if key >? xk then
                 rr' <-- _splay rr key ;;
                 _left_rotate (SplayNode rk rv l (SplayNode xk xv rl rr'))
               else if key <? xk then
                 rl' <-- _splay rl key ;;
                 match rl' with
                 | Nil => Ok (SplayNode rk rv l (SplayNode xk xv rl' rr))
                 | SplayNode _ _ _ _ =>
                     r' <-- _right_rotate (SplayNode xk xv rl' rr) ;;
                     Ok (SplayNode rk rv l r')
                 end
               else Ok root) ;;
            match root1 with
            | Nil => Raise AttributeError
            | SplayNode _ _ _ Nil => Ok root1
            | SplayNode _ _ _ (SplayNode _ _ _ _) => _left_rotate root1
            end
        end
  end.

(** The state of a [SplayTree] object is its [root] field.  The call of
    [_splay] is an expression whose value is assigned to [self.root]; if
    it raised, the assignment would not happen. *)
Definition splay_root (key : Z) : M tree unit :=
  fun root =>
    match _splay root key with
    | Ok root' => (Ok tt, root')
    | Raise e => (Raise e, root)
    end.

Definition search (key : Z) : M tree (option Z) :=
  splay_root key ;;
  root <- get_state ;;
  match root with
  | SplayNode k v _ _ => if k =? key then ret (Some v) else ret None
  | Nil => ret None
  end.

Definition insert (key value : Z) : M tree unit :=
  root <- get_state ;;
  match root with
  | Nil => put_state (SplayNode key value Nil Nil)
  | SplayNode _ _ _ _ =>
      splay_root key ;;
      root <- get_state ;;
      match root with
      | Nil => raise AttributeError
      | SplayNode k v l r =>
          if k =? key then put_state (SplayNode k value l r)
          else if key <? k
          then put_state (SplayNode key value l (SplayNode k v Nil r))
          else put_state (SplayNode key value (SplayNode k v l Nil) r)
      end
  end.

(** [fibonacci_splay(n, tree)].  The recursion is on [n - 1] and [n - 2];
    [depth] is the number of nested calls of [fibonacci_splay] that the
    interpreter still allows, and running out of them is Python's
    [RecursionError].  (The frames of [_splay], which recurses on the
    structure of the tree, are not counted.) *)
Fixpoint fibonacci_splay (depth : nat) (n : Z) {struct depth} : M tree Z :=
  match depth with
  | O => raise RecursionError
  | S depth' =>
      cached_val <- search n ;;
      match cached_val with
      | Some v => ret v
      | None =>
          result <-
            (if n <? 2 then ret n
             else
               a <- fibonacci_splay depth' (n - 1) ;;
               b <- fibonacci_splay depth' (n - 2) ;;
               ret (a + b)) ;;
          insert n result ;;
          ret result
      end
  end.

(** [fibonacci_lru(n)].  The [functools.lru_cache] decorator only stores
    and replays the results of this function, which depends on nothing but
    [n]; the body is what is modelled.  [fib_loop count (a, b)] runs
    [a, b = b, a + b] [count] times, and [range(2, n + 1)] has
    [n + 1 - 2] elements when that is positive and none otherwise. *)
Fixpoint fib_loop (count : nat) (ab : Z * Z) : Z * Z :=
  match count with
  | O => ab
  | S count' => fib_loop count' (snd ab, fst ab + snd ab)
  end.

Definition fibonacci_lru (n : Z) : Z :=
  if n <? 2 then n
  else
    let (a, b) := fib_loop (Z.to_nat (n + 1 - 2)) (0, 1) in
    b.

(** [reset_splay_tree()] *)
Definition reset_splay_tree : tree := Nil.

(** The sequence of public calls made on a [SplayTree]. *)
Inductive tree_op : Type :=
| Search (key : Z)
| Insert (key value : Z).

Definition tree_call (o : tree_op) : M tree unit :=
  match o with
  | Search k => search k ;; ret tt
  | Insert k v => insert k v
  end.

(** In-order traversal, as (key, value) pairs. *)
Fixpoint inorder (t : tree) : list (Z * Z) :=
  match t with
  | Nil => []
  | SplayNode k v l r => inorder l ++ (k, v) :: inorder r
  end.

Definition tree_keys (t : tree) : list Z := map fst (inorder t).

(** The Fibonacci numbers by their recurrence. *)
Fixpoint fib (n : nat) : Z :=
  match n with
  | O => 0
  | S m =>
      match m with
      | O => 1
      | S p => fib m + fib p
      end
  end.

(** ** Vocabulary of the statements *)

(** The public calls made on an [LRUCache], and the states the object goes
    through, one per call. *)
Inductive cache_op : Type :=
| Get (key : OrderedDict.key)
| Put (key : OrderedDict.key) (value : Z)
| Invalidate (condition_func : OrderedDict.key -> bool).

Definition cache_call (o : cache_op) : M LRUCache.t unit :=
  match o with
  | Get k => LRUCache.get k ;; ret tt
  | Put k v => LRUCache.put k v
  | Invalidate f => LRUCache.invalidate f
  end.

Fixpoint states_after (ops : list cache_op) (c : LRUCache.t) : list (res unit * LRUCache.t) :=
  match ops with
  | [] => []
  | o :: ops' =>
      let rc := cache_call o c in
      rc :: states_after ops' (snd rc)
  end.

(** [put] called on each pair of a list, in order. *)
Definition put_all (kvs : list (OrderedDict.key * Z)) : M LRUCache.t unit :=
  for_each kvs (fun kv => LRUCache.put (fst kv) (snd kv)).

(** A query whose bounds lie inside an array of length [n]. *)
Definition in_range (n : Z) (q : query) : Prop :=
  match q with
  | Range L R => 0 <= L <= R /\ R < n
  | Update index _ => 0 <= index < n
  end.

(** Every cached sum is the sum of its range in the current array. *)
Definition cache_valid (a : list Z) (d : OrderedDict.t) : Prop :=
  forall L R s, In ((L, R), s) d ->
    (0 <= L <= R /\ R < PyList.len a) /\ s = PyList.sum (PyList.slice a L (R + 1)).

(** Deletion of the first entry of a key, if there is one. *)
Fixpoint remove_key (k : OrderedDict.key) (d : OrderedDict.t) : OrderedDict.t :=
  match d with
  | [] => []
  | (k', v') :: d' =>
      if OrderedDict.key_eqb k k' then d' else (k', v') :: remove_key k d'
  end.

(** The [condition] closure of [update_with_cache]. *)
Definition overlaps (index : Z) (key : OrderedDict.key) : bool :=
  let (L, R) := key in (L <=? index) && (index <=? R).

(** What [put] does to the dictionary: the entry goes last, and the oldest
    entry is dropped when the capacity is exceeded. *)
Definition put_dict (cap : Z) (k : OrderedDict.key) (v : Z) (d : OrderedDict.t) : OrderedDict.t :=
  let d1 := remove_key k d ++ [(k, v)] in
  if OrderedDict.len d1 >? cap then tl d1 else d1.

Definition all_keys (P : Z -> Prop) (t : tree) : Prop := Forall P (tree_keys t).

(** The binary-search-tree ordering of the nodes. *)
Fixpoint bst (t : tree) : Prop :=
  match t with
  | Nil => True
  | SplayNode k _ l r =>
      bst l /\ bst r /\ all_keys (fun x => x < k) l /\ all_keys (fun x => k < x) r
  end.

(** The root separates the keys below [k] from those above it. *)
Definition splits_at (k : Z) (t : tree) : Prop :=
  match t with
  | Nil => True
  | SplayNode _ _ l r => all_keys (fun x => x < k) l /\ all_keys (fun x => k < x) r
  end.

(** The states of a [SplayTree] object: those reached from the empty
    tree of [SplayTree()] by calls of [insert] and [search]. *)
Definition is_splay_tree (t : tree) : Prop :=
  exists ops, for_each ops tree_call Nil = (Ok tt, t).

(** Every memoised pair with a non-negative key is a Fibonacci number. *)
Definition memo_ok (t : tree) : Prop :=
  forall k v, In (k, v) (inorder t) -> 0 <= k -> v = fib (Z.to_nat k).

(** ** The dictionary operations *)

Lemma key_eqb_eq (a b : OrderedDict.key) : OrderedDict.key_eqb a b = true <-> a = b.
Proof.
  destruct a as [a1 a2], b as [b1 b2]; unfold OrderedDict.key_eqb; cbn.
  rewrite andb_true_iff, !Z.eqb_eq. split.
  - intros [-> ->]; reflexivity.
  - intros H; injection H; auto.
Qed.

Lemma key_eqb_refl (a : OrderedDict.key) : OrderedDict.key_eqb a a = true.
Proof. apply key_eqb_eq; reflexivity. Qed.

Lemma key_eqb_neq (a b : OrderedDict.key) : OrderedDict.key_eqb a b = false <-> a <> b.
Proof.
  rewrite <- key_eqb_eq. destruct (OrderedDict.key_eqb a b); split; congruence.
Qed.

Lemma getitem_none_iff k d : OrderedDict.getitem k d = None <-> ~ In k (OrderedDict.keys d).
Proof.
  induction d as [|[k' v'] d IH]; cbn.
  - tauto.
  - destruct (OrderedDict.key_eqb k k') eqn:E.
    + apply key_eqb_eq in E; subst. split; [discriminate | tauto].
    + apply key_eqb_neq in E. rewrite IH. split; [intros H [H'|H'] | ]; try tauto.
      congruence.
Qed.

Lemma getitem_in k v d : OrderedDict.getitem k d = Some v -> In (k, v) d.
Proof.
  induction d as [|[k' v'] d IH]; cbn; [discriminate|].
  destruct (OrderedDict.key_eqb k k') eqn:E.
  - apply key_eqb_eq in E; subst. intros [= ->]; auto.
  - auto.
Qed.

Lemma in_getitem k v d :
  NoDup (OrderedDict.keys d) -> In (k, v) d -> OrderedDict.getitem k d = Some v.
Proof.
  induction d as [|[k' v'] d IH]; cbn; [tauto|].
  intros Hnd [H|H]; inversion Hnd; subst.
  - injection H as -> ->. now rewrite key_eqb_refl.
  - destruct (OrderedDict.key_eqb k k') eqn:E; auto.
    apply key_eqb_eq in E; subst. exfalso. apply H2.
    change k' with (fst (k', v)). now apply in_map.
Qed.

Lemma delitem_remove k d :
  OrderedDict.delitem k d =
  if OrderedDict.contains k d then Some (remove_key k d) else None.
Proof.
  unfold OrderedDict.contains.
  induction d as [|[k' v'] d IH]; cbn; [reflexivity|].
  destruct (OrderedDict.key_eqb k k'); [reflexivity|].
  rewrite IH. destruct (OrderedDict.getitem k d); reflexivity.
Qed.

Lemma remove_key_absent k d : ~ In k (OrderedDict.keys d) -> remove_key k d = d.
Proof.
  induction d as [|[k' v'] d IH]; cbn; [reflexivity|]. intros H.
  destruct (OrderedDict.key_eqb k k') eqn:E.
  - apply key_eqb_eq in E; subst. tauto.
  - f_equal. apply IH. tauto.
Qed.

Lemma remove_key_incl k d e : In e (remove_key k d) -> In e d.
Proof.
  induction d as [|[k' v'] d IH]; cbn; [tauto|].
  destruct (OrderedDict.key_eqb k k'); cbn; intuition.
Qed.

Lemma remove_key_length k d :
  length (remove_key k d) =
  if OrderedDict.contains k d then pred (length d) else length d.
Proof.
  unfold OrderedDict.contains.
  induction d as [|[k' v'] d IH]; cbn; [reflexivity|].
  destruct (OrderedDict.key_eqb k k'); [reflexivity|]. cbn. rewrite IH.
  destruct (OrderedDict.getitem k d) eqn:E; [|reflexivity].
  destruct d; [discriminate | reflexivity].
Qed.

Lemma remove_key_keys_nodup k d :
  NoDup (OrderedDict.keys d) -> NoDup (OrderedDict.keys (remove_key k d)).
Proof.
  induction d as [|[k' v'] d IH]; cbn; [auto|]. intros H; inversion H; subst.
  destruct (OrderedDict.key_eqb k k'); cbn; [assumption|].
  constructor; [|auto]. intros Hin. apply H2.
  apply in_map_iff in Hin as [e [<- He]]. apply in_map. eapply remove_key_incl; eauto.
Qed.

Lemma remove_key_not_in k d :
  NoDup (OrderedDict.keys d) -> ~ In k (OrderedDict.keys (remove_key k d)).
Proof.
  induction d as [|[k' v'] d IH]; cbn; [tauto|]. intros H; inversion H; subst.
  destruct (OrderedDict.key_eqb k k') eqn:E; cbn.
  - apply key_eqb_eq in E; subst; assumption.
  - apply key_eqb_neq in E. intros [H'|H']; [congruence | now apply IH].
Qed.

(** [d[k] = v] followed by [d.move_to_end(k)] always succeeds and leaves
    the entry last. *)
Lemma move_to_end_setitem k v d :
  OrderedDict.move_to_end k (OrderedDict.setitem k v d) = Some (remove_key k d ++ [(k, v)]).
Proof.
  unfold OrderedDict.move_to_end.
  induction d as [|[k' v'] d IH]; cbn.
  - rewrite key_eqb_refl. reflexivity.
  - destruct (OrderedDict.key_eqb k k') eqn:E; cbn; rewrite E.
    + apply key_eqb_eq in E; subst. 
      reflexivity.
    + destruct (OrderedDict.getitem k (OrderedDict.setitem k v d)) as [w|];
        [|discriminate].
      destruct (OrderedDict.delitem k (OrderedDict.setitem k v d)) as [d''|];
        [|discriminate].
      injection IH as IH. cbn. now rewrite <- IH.
Qed.

Lemma getitem_app_last k v d :
  OrderedDict.getitem k (d ++ [(k, v)]) =
  match OrderedDict.getitem k d with
  | Some w => Some w
  | None => Some v
  end.
Proof.
  induction d as [|[k' v'] d IH]; cbn.
  - now rewrite key_eqb_refl.
  - destruct (OrderedDict.key_eqb k k'); auto.
Qed.

Lemma move_to_end_present k v d :
  OrderedDict.getitem k d = Some v ->
  OrderedDict.move_to_end k d = Some (remove_key k d ++ [(k, v)]).
Proof.
  intros H. unfold OrderedDict.move_to_end. rewrite H, delitem_remove.
  unfold OrderedDict.contains. now rewrite H.
Qed.

(** ** The cache methods as functions on the dictionary *)

Lemma put_eq k v c :
  LRUCache.put k v c =
  (Ok tt, LRUCache.mk (LRUCache.capacity c) (put_dict (LRUCache.capacity c) k v (LRUCache.cache c))).
Proof.
  destruct c as [cap d].
  unfold LRUCache.put, bind, LRUCache.on_cache, get_state, ret, put_dict; cbn.
  rewrite move_to_end_setitem; cbn.
  destruct (OrderedDict.len (remove_key k d ++ [(k, v)]) >? cap); [|reflexivity].
  destruct (remove_key k d ++ [(k, v)]) eqn:E; [|reflexivity].
  destruct (remove_key k d); discriminate.
Qed.

Lemma get_miss k c :
  OrderedDict.getitem k (LRUCache.cache c) = None ->
  LRUCache.get k c = (Ok None, c).
Proof.
  intros H. unfold LRUCache.get, bind, get_state, OrderedDict.contains; cbn.
  now rewrite H.
Qed.

Lemma get_hit k v c :
  OrderedDict.getitem k (LRUCache.cache c) = Some v ->
  exists w,
    LRUCache.get k c =
    (Ok (Some w),
     LRUCache.mk (LRUCache.capacity c) (remove_key k (LRUCache.cache c) ++ [(k, v)]))
    /\ In (k, w) (LRUCache.cache c).
Proof.
  intros H. destruct c as [cap d]; cbn in *.
  unfold LRUCache.get, bind, get_state, OrderedDict.contains, LRUCache.on_cache; cbn.
  rewrite H; cbn. rewrite (move_to_end_present _ _ _ H); cbn.
  rewrite getitem_app_last.
  destruct (OrderedDict.getitem k (remove_key k d)) as [w|] eqn:E.
  - exists w. split; [reflexivity|].
    eapply remove_key_incl. eapply getitem_in; eauto.
  - exists v. split; [reflexivity|]. now apply getitem_in.
Qed.

Lemma get_hit_nodup k v c :
  NoDup (OrderedDict.keys (LRUCache.cache c)) ->
  In (k, v) (LRUCache.cache c) ->
  LRUCache.get k c =
  (Ok (Some v),
   LRUCache.mk (LRUCache.capacity c) (remove_key k (LRUCache.cache c) ++ [(k, v)])).
Proof.
  intros Hnd Hin. pose proof (in_getitem _ _ _ Hnd Hin) as Hg.
  destruct (get_hit _ _ _ Hg) as [w [-> Hw]].
  pose proof (in_getitem _ _ _ Hnd Hw) as Hg'. congruence.
Qed.

Lemma for_each_del_cons ks : forall d d2 cap k v,
  ~ In k ks ->
  for_each ks (fun k => LRUCache.on_cache (OrderedDict.delitem k)) (LRUCache.mk cap d)
    = (Ok tt, LRUCache.mk cap d2) ->
  for_each ks (fun k => LRUCache.on_cache (OrderedDict.delitem k)) (LRUCache.mk cap ((k, v) :: d))
    = (Ok tt, LRUCache.mk cap ((k, v) :: d2)).
Proof.
  induction ks as [|k1 ks IH]; intros d d2 cap k v Hn; cbn.
  - unfold ret. intros [= ->]. reflexivity.
  - unfold bind, LRUCache.on_cache; cbn.
    destruct (OrderedDict.key_eqb k1 k) eqn:E.
    { apply key_eqb_eq in E. subst. cbn in Hn. tauto. }
    destruct (OrderedDict.delitem k1 d) as [d1|]; [|discriminate].
    intros H. apply IH; [cbn in Hn; tauto | exact H].
Qed.

Lemma invalidate_eq f c :
  LRUCache.invalidate f c =
  (Ok tt,
   LRUCache.mk (LRUCache.capacity c)
     (filter (fun e => negb (f (fst e))) (LRUCache.cache c))).
Proof.
  destruct c as [cap d]. unfold LRUCache.invalidate, bind, get_state; cbn.
  induction d as [|[k v] d IH]; cbn; [reflexivity|].
  destruct (f k) eqn:E; cbn.
  - unfold bind at 1. unfold LRUCache.on_cache at 1. cbn.
    rewrite key_eqb_refl. exact IH.
  - apply for_each_del_cons; [|exact IH].
    intros Hin. apply filter_In in Hin. destruct Hin as [_ Hin]. congruence.
Qed.

Lemma put_dict_length cap k v d :
  0 <= cap -> OrderedDict.len d <= cap -> OrderedDict.len (put_dict cap k v d) <= cap.
Proof.
  unfold put_dict, OrderedDict.len. intros Hc Hd.
  destruct (Z.gtb_spec (Z.of_nat (length (remove_key k d ++ [(k, v)]))) cap) as [H|H];
    [|exact H].
  pose proof (remove_key_length k d) as Hl.
  assert (length (remove_key k d) <= length d)%nat
    by (destruct (OrderedDict.contains k d); lia).
  rewrite length_app in H; cbn in H.
  destruct (remove_key k d ++ [(k, v)]) eqn:E.
  - cbn; lia.
  - apply (f_equal (@length _)) in E. rewrite length_app in E. cbn in *. lia.
Qed.

Lemma put_dict_incl cap k v d e : In e (put_dict cap k v d) -> e = (k, v) \/ In e d.
Proof.
  unfold put_dict. intros H.
  assert (In e (remove_key k d ++ [(k, v)])) as H'.
  { destruct (OrderedDict.len _ >? cap); [|exact H].
    destruct (remove_key k d ++ [(k, v)]); cbn in *; tauto. }
  apply in_app_iff in H' as [H'|[H'|[]]]; [right|left; auto].
  eapply remove_key_incl; eauto.
Qed.

Lemma cache_call_spec o c :
  exists d, cache_call o c = (Ok tt, LRUCache.mk (LRUCache.capacity c) d)
    /\ (0 <= LRUCache.capacity c ->
        OrderedDict.len (LRUCache.cache c) <= LRUCache.capacity c ->
        OrderedDict.len d <= LRUCache.capacity c).
Proof.
  destruct o as [k|k v|f]; unfold cache_call.
  - unfold bind.
    destruct (OrderedDict.getitem k (LRUCache.cache c)) as [v|] eqn:E.
    + destruct (get_hit _ _ _ E) as [w [-> _]]. eexists; split; [reflexivity|].
      intros _ H. unfold OrderedDict.len in *.
      rewrite length_app, remove_key_length. unfold OrderedDict.contains.
      rewrite E. cbn. destruct (LRUCache.cache c); [discriminate|cbn in *; lia].
    + rewrite (get_miss _ _ E). destruct c; eexists; split; [reflexivity|auto].
  - rewrite put_eq. eexists; split; [reflexivity|]. apply put_dict_length.
  - rewrite invalidate_eq. eexists; split; [reflexivity|].
    intros _ H. unfold OrderedDict.len in *.
    pose proof (filter_length_le (fun e => negb (f (fst e))) (LRUCache.cache c)). lia.
Qed.

(** [C2] Capacity invariant.  For a cache constructed with a positive
    capacity and any sequence of [get], [put] and [invalidate] calls, every
    call returns normally and leaves at most [capacity] entries in the
    cache. *)
Theorem capacity_invariant (capacity : Z) (c0 : LRUCache.t) (ops : list cache_op) :
  0 < capacity ->
  LRUCache.__init__ capacity = Ok c0 ->
  Forall (fun rc => fst rc = Ok tt
                    /\ LRUCache.capacity (snd rc) = capacity
                    /\ OrderedDict.len (LRUCache.cache (snd rc)) <= capacity)
         (states_after ops c0).
Proof.
  intros Hpos [= <-].
  assert (forall c, LRUCache.capacity c = capacity ->
                    OrderedDict.len (LRUCache.cache c) <= capacity ->
                    Forall (fun rc => fst rc = Ok tt
                       /\ LRUCache.capacity (snd rc) = capacity
                       /\ OrderedDict.len (LRUCache.cache (snd rc)) <= capacity)
                      (states_after ops c)) as Hgen.
  { induction ops as [|o ops IH]; intros c Hcap Hlen; cbn; constructor.
    - destruct (cache_call_spec o c) as [d [-> Hd]]; cbn.
      repeat split; [exact Hcap|]. rewrite Hcap in Hd. apply Hd; [lia|exact Hlen].
    - destruct (cache_call_spec o c) as [d [-> Hd]]; cbn.
      apply IH; cbn; [exact Hcap|]. rewrite Hcap in Hd. apply Hd; [lia|exact Hlen]. }
  apply Hgen; cbn; [reflexivity|lia].
Qed.

Lemma capacity_invariant_witness :
  Forall (fun rc => fst rc = Ok tt
                    /\ LRUCache.capacity (snd rc) = 2
                    /\ OrderedDict.len (LRUCache.cache (snd rc)) <= 2)
         (states_after
            [Put (0, 1) 5; Put (1, 2) 7; Get (0, 1); Put (2, 3) 9;
             Invalidate (fun k => fst k =? 0); Put (4, 4) 1]
            (LRUCache.mk 2 [])).
Proof.
  apply (capacity_invariant 2 (LRUCache.mk 2 [])); [lia | reflexivity].
Defined.

(** ** The update path *)

Lemma setitem_in_bounds index value a :
  - PyList.len a <= index < PyList.len a ->
  PyList.setitem index value a =
  (Ok tt,
   PyList.set_nth a (Z.to_nat (if index <? 0 then index + PyList.len a else index)) value).
Proof.
  intros H. unfold PyList.setitem.
  destruct (Z.leb_spec (- PyList.len a) index); [|lia].
  destruct (Z.ltb_spec index (PyList.len a)); [|lia]. reflexivity.
Qed.

Lemma setitem_out_of_bounds index value a :
  index < - PyList.len a \/ PyList.len a <= index ->
  PyList.setitem index value a = (Raise IndexError, a).
Proof.
  intros H. unfold PyList.setitem.
  destruct (Z.leb_spec (- PyList.len a) index); [|reflexivity].
  destruct (Z.ltb_spec index (PyList.len a)); [lia|reflexivity].
Qed.

Lemma update_with_cache_eq index value a c :
  - PyList.len a <= index < PyList.len a ->
  update_with_cache index value (mkStore a c) =
  (Ok tt,
   mkStore
     (PyList.set_nth a (Z.to_nat (if index <? 0 then index + PyList.len a else index)) value)
     (LRUCache.mk (LRUCache.capacity c)
        (filter (fun e => negb (overlaps index (fst e))) (LRUCache.cache c)))).
Proof.
  intros H. unfold update_with_cache, bind, with_array, with_lru.
  cbn [array lru_cache]. rewrite (setitem_in_bounds _ _ _ H).
  cbn [array lru_cache]. rewrite invalidate_eq. reflexivity.
Qed.

Lemma update_with_cache_raises index value a c :
  index < - PyList.len a \/ PyList.len a <= index ->
  update_with_cache index value (mkStore a c) = (Raise IndexError, mkStore a c).
Proof.
  intros H. unfold update_with_cache, bind, with_array, with_lru.
  cbn [array lru_cache]. rewrite (setitem_out_of_bounds _ _ _ H). reflexivity.
Qed.

(** [C6] Invalidation completeness.  After [update_with_cache] at an
    in-range index [i] has completed, [get] answers "absent" for every key
    [(L, R)] with [L <= i <= R], whatever the cache held before. *)
Theorem invalidation_complete (a : list Z) (c : LRUCache.t) (i v : Z) :
  0 <= i < PyList.len a ->
  exists s',
    update_with_cache i v (mkStore a c) = (Ok tt, s')
    /\ forall L R, L <= i <= R ->
         LRUCache.get (L, R) (lru_cache s') = (Ok None, lru_cache s').
Proof.
  intros Hi. eexists. split.
  - apply update_with_cache_eq. lia.
  - intros L R HLR. apply get_miss. cbn. apply getitem_none_iff.
    intros Hin. apply in_map_iff in Hin as [[k s] [Hk He]]. cbn in Hk. subst k.
    apply filter_In in He as [_ He]. cbn in He.
    destruct (Z.leb_spec L i); [|lia]. destruct (Z.leb_spec i R); [|lia].
    discriminate.
Qed.

Lemma invalidation_complete_witness :
  exists s',
    update_with_cache 2 10
      (mkStore [1; 2; 3; 4; 5] (LRUCache.mk 3 [((1, 3), 9); ((0, 1), 3); ((2, 2), 3)]))
    = (Ok tt, s')
    /\ forall L R, L <= 2 <= R ->
         LRUCache.get (L, R) (lru_cache s') = (Ok None, lru_cache s').
Proof.
  apply (invalidation_complete [1; 2; 3; 4; 5]
           (LRUCache.mk 3 [((1, 3), 9); ((0, 1), 3); ((2, 2), 3)]) 2 10).
  cbn; lia.
Defined.

(** ** Filling a cache *)

Lemma put_all_fits kvs : forall d cap,
  NoDup (OrderedDict.keys d ++ map fst kvs) ->
  OrderedDict.len d + Z.of_nat (length kvs) <= cap ->
  put_all kvs (LRUCache.mk cap d) = (Ok tt, LRUCache.mk cap (d ++ kvs)).
Proof.
  unfold put_all.
  induction kvs as [|[k v] kvs IH]; intros d cap Hnd Hlen; cbn.
  - now rewrite app_nil_r.
  - unfold bind at 1. rewrite put_eq; cbn.
    assert (~ In k (OrderedDict.keys d)) as Hk.
    { apply NoDup_remove_2 in Hnd. intros H. apply Hnd. apply in_app_iff. auto. }
    unfold put_dict. rewrite (remove_key_absent _ _ Hk).
    unfold OrderedDict.len in *. cbn [length] in Hlen.
    destruct (Z.gtb_spec (Z.of_nat (length (d ++ [(k, v)]))) cap) as [H|H].
    { rewrite length_app in H; cbn in H. lia. }
    rewrite IH.
    + now rewrite <- app_assoc.
    + unfold OrderedDict.keys in *. rewrite map_app; cbn. rewrite <- app_assoc. exact Hnd.
    + rewrite length_app; cbn. lia.
Qed.

Lemma put_full k v e d cap :
  ~ In k (OrderedDict.keys (e :: d)) ->
  OrderedDict.len (e :: d) = cap ->
  LRUCache.put k v (LRUCache.mk cap (e :: d)) = (Ok tt, LRUCache.mk cap (d ++ [(k, v)])).
Proof.
  intros Hk Hlen. rewrite put_eq; cbn [LRUCache.capacity LRUCache.cache].
  unfold put_dict. rewrite (remove_key_absent _ _ Hk).
  unfold OrderedDict.len in *.
  destruct (Z.gtb_spec (Z.of_nat (length ((e :: d) ++ [(k, v)]))) cap) as [H|H].
  - reflexivity.
  - rewrite length_app in H; cbn in *. lia.
Qed.

Lemma for_each_app {S A : Type} (xs ys : list A) (body : A -> M S unit) s s' :
  for_each xs body s = (Ok tt, s') ->
  for_each (xs ++ ys) body s = for_each ys body s'.
Proof.
  revert s. induction xs as [|x xs IH]; intros s; cbn.
  - unfold ret. now intros [= ->].
  - unfold bind. destruct (body x s) as [[[]|e] s1]; [|discriminate]. apply IH.
Qed.

(** [C7] LRU eviction order.  On a fresh cache of positive capacity [C],
    putting [C + 1] distinct keys [k1 .. k(C+1)] in order, with no [get] in
    between, keeps all of [k1 .. kC] through the first [C] puts; the last
    put evicts exactly [k1], after which [get k1] is absent and each of
    [k2 .. k(C+1)] is still retrievable with its value. *)
Theorem lru_eviction_order (C : Z) (c0 : LRUCache.t)
        (k1 : OrderedDict.key) (v1 : Z) (rest : list (OrderedDict.key * Z)) :
  0 < C ->
  LRUCache.__init__ C = Ok c0 ->
  Z.of_nat (length rest) = C ->
  NoDup (k1 :: map fst rest) ->
  put_all ((k1, v1) :: removelast rest) c0
    = (Ok tt, LRUCache.mk C ((k1, v1) :: removelast rest))
  /\ put_all ((k1, v1) :: rest) c0 = (Ok tt, LRUCache.mk C rest)
  /\ LRUCache.get k1 (LRUCache.mk C rest) = (Ok None, LRUCache.mk C rest)
  /\ forall k v, In (k, v) rest ->
       exists c', LRUCache.get k (LRUCache.mk C rest) = (Ok (Some v), c').
Proof.
  intros Hpos [= <-] Hlen Hnd.
  destruct (exists_last (l := rest)) as [front [[kl vl] Hrest]].
  { intros ->. cbn in Hlen. lia. }
  subst rest. rewrite removelast_last.
  rewrite length_app in Hlen; cbn in Hlen.
  assert (put_all ((k1, v1) :: front) (LRUCache.mk C [])
          = (Ok tt, LRUCache.mk C ((k1, v1) :: front))) as Hfirst.
  { apply (put_all_fits ((k1, v1) :: front) [] C).
    - cbn. rewrite map_app in Hnd. cbn in Hnd.
      change (k1 :: map fst front ++ [kl]) with ((k1 :: map fst front) ++ [kl]) in Hnd.
      apply NoDup_remove_1 in Hnd. now rewrite app_nil_r in Hnd.
    - unfold OrderedDict.len; cbn [length]. lia. }
  split; [exact Hfirst|]. split; [|split].
  - change ((k1, v1) :: front ++ [(kl, vl)]) with (((k1, v1) :: front) ++ [(kl, vl)]).
    unfold put_all in *. rewrite (for_each_app _ _ _ _ _ Hfirst).
    cbn [for_each]. unfold bind. cbn [fst snd]. rewrite put_full.
    + reflexivity.
    + cbn. rewrite map_app in Hnd. cbn in Hnd.
      change (k1 :: map fst front ++ [kl]) with ((k1 :: map fst front) ++ [kl]) in Hnd.
      apply NoDup_remove_2 in Hnd. rewrite app_nil_r in Hnd. exact Hnd.
    + unfold OrderedDict.len; cbn [length]. lia.
  - apply get_miss. cbn. apply getitem_none_iff. now inversion Hnd.
  - intros k v Hin. eexists. apply get_hit_nodup; cbn; [|exact Hin].
    now inversion Hnd.
Qed.

Lemma lru_eviction_order_witness :
  put_all [((0, 0), 10); ((1, 1), 11); ((2, 2), 12)] (LRUCache.mk 3 [])
    = (Ok tt, LRUCache.mk 3 [((0, 0), 10); ((1, 1), 11); ((2, 2), 12)])
  /\ put_all [((0, 0), 10); ((1, 1), 11); ((2, 2), 12); ((3, 3), 13)] (LRUCache.mk 3 [])
    = (Ok tt, LRUCache.mk 3 [((1, 1), 11); ((2, 2), 12); ((3, 3), 13)])
  /\ LRUCache.get (0, 0) (LRUCache.mk 3 [((1, 1), 11); ((2, 2), 12); ((3, 3), 13)])
    = (Ok None, LRUCache.mk 3 [((1, 1), 11); ((2, 2), 12); ((3, 3), 13)])
  /\ forall k v, In (k, v) [((1, 1), 11); ((2, 2), 12); ((3, 3), 13)] ->
       exists c',
         LRUCache.get k (LRUCache.mk 3 [((1, 1), 11); ((2, 2), 12); ((3, 3), 13)])
         = (Ok (Some v), c').
Proof.
  apply (lru_eviction_order 3 (LRUCache.mk 3 []) (0, 0) 10
           [((1, 1), 11); ((2, 2), 12); ((3, 3), 13)]).
  - lia.
  - reflexivity.
  - reflexivity.
  - repeat constructor; cbn; intuition discriminate.
Defined.

(** [C8], as stated, fails: a zero or a negative capacity is accepted. *)
Lemma init_accepts_bad_capacity :
  LRUCache.__init__ 0 = Ok (LRUCache.mk 0 [])
  /\ LRUCache.__init__ (-5) = Ok (LRUCache.mk (-5) []).
Proof. split; reflexivity. Qed.

(** [C8], amended.  Construction validates nothing: for every capacity,
    zero and negative ones included, it succeeds with an empty cache of
    that capacity.  A cache whose capacity is not positive retains
    nothing: every [put] on it returns normally and leaves it empty. *)
Theorem init_never_fails (capacity : Z) :
  LRUCache.__init__ capacity = Ok (LRUCache.mk capacity [])
  /\ (capacity <= 0 ->
      forall k v,
        LRUCache.put k v (LRUCache.mk capacity []) = (Ok tt, LRUCache.mk capacity [])).
Proof.
  split; [reflexivity|]. intros H k v. rewrite put_eq. cbn.
  unfold put_dict, OrderedDict.len; cbn.
  destruct (Z.gtb_spec 1 capacity); [reflexivity | lia].
Qed.

Lemma init_never_fails_witness :
  LRUCache.__init__ 0 = Ok (LRUCache.mk 0 [])
  /\ forall k v, LRUCache.put k v (LRUCache.mk 0 []) = (Ok tt, LRUCache.mk 0 []).
Proof.
  destruct (init_never_fails 0) as [H1 H2].
  split; [exact H1 | apply H2; lia].
Defined.

(** ** Range sums *)

Lemma len_set_nth a i v : PyList.len (PyList.set_nth a i v) = PyList.len a.
Proof.
  unfold PyList.len. f_equal. revert i.
  induction a as [|x a IH]; intros [|i]; cbn; auto.
Qed.

Lemma firstn_skipn_set_nth v : forall a s m i,
  (i < s \/ s + m <= i)%nat ->
  firstn m (skipn s (PyList.set_nth a i v)) = firstn m (skipn s a).
Proof.
  induction a as [|x a IH]; intros s m i H; [reflexivity|].
  destruct i as [|i], s as [|s]; cbn [PyList.set_nth skipn].
  - destruct m; [reflexivity | lia].
  - reflexivity.
  - destruct m; [reflexivity|]. cbn [firstn]. f_equal.
    apply (IH 0%nat m i). lia.
  - apply IH. lia.
Qed.

Lemma slice_in_range a L R :
  0 <= L <= R /\ R < PyList.len a ->
  PyList.slice a L (R + 1) = firstn (Z.to_nat (R + 1 - L)) (skipn (Z.to_nat L) a).
Proof.
  intros H. unfold PyList.slice, PyList.clip.
  destruct (Z.ltb_spec L 0); [lia|]. destruct (Z.ltb_spec (R + 1) 0); [lia|].
  rewrite !Z.min_l by lia. reflexivity.
Qed.

Lemma slice_set_nth a L R i v :
  0 <= L <= R /\ R < PyList.len a ->
  0 <= i < PyList.len a ->
  ~ (L <= i <= R) ->
  PyList.slice (PyList.set_nth a (Z.to_nat i) v) L (R + 1) = PyList.slice a L (R + 1).
Proof.
  intros HLR Hi Hn.
  rewrite !slice_in_range by (rewrite ?len_set_nth; exact HLR).
  apply firstn_skipn_set_nth. lia.
Qed.

Lemma range_sum_no_cache_eq L R a :
  range_sum_no_cache L R a = (Ok (PyList.sum (PyList.slice a L (R + 1))), a).
Proof. reflexivity. Qed.

Lemma range_sum_with_cache_miss L R a c :
  OrderedDict.getitem (L, R) (LRUCache.cache c) = None ->
  range_sum_with_cache L R (mkStore a c) =
  (Ok (PyList.sum (PyList.slice a L (R + 1))),
   mkStore a
     (LRUCache.mk (LRUCache.capacity c)
        (put_dict (LRUCache.capacity c) (L, R)
           (PyList.sum (PyList.slice a L (R + 1))) (LRUCache.cache c)))).
Proof.
  intros H. unfold range_sum_with_cache, bind, with_lru, with_array.
  cbn [array lru_cache]. rewrite (get_miss _ _ H).
  cbn [array lru_cache get_state ret]. rewrite put_eq. reflexivity.
Qed.

Lemma range_sum_with_cache_hit L R v a c :
  OrderedDict.getitem (L, R) (LRUCache.cache c) = Some v ->
  exists w,
    range_sum_with_cache L R (mkStore a c) =
    (Ok w,
     mkStore a
       (LRUCache.mk (LRUCache.capacity c)
          (remove_key (L, R) (LRUCache.cache c) ++ [((L, R), v)])))
    /\ In ((L, R), w) (LRUCache.cache c).
Proof.
  intros H. destruct (get_hit _ _ _ H) as [w [Hg Hw]]. exists w. split; [|exact Hw].
  unfold range_sum_with_cache, bind, with_lru, with_array.
  cbn [array lru_cache]. rewrite Hg. reflexivity.
Qed.

Lemma cache_valid_update a d i v :
  0 <= i < PyList.len a ->
  cache_valid a d ->
  cache_valid (PyList.set_nth a (Z.to_nat i) v)
              (filter (fun e => negb (overlaps i (fst e))) d).
Proof.
  intros Hi Hv L R s Hin. apply filter_In in Hin as [Hin Hov].
  destruct (Hv L R s Hin) as [HLR ->]. rewrite len_set_nth. split; [exact HLR|].
  f_equal. symmetry. apply slice_set_nth; auto.
  cbn in Hov. intros [H1 H2].
  destruct (Z.leb_spec L i); [|lia]. destruct (Z.leb_spec i R); [|lia]. discriminate.
Qed.

Lemma transparency_from_valid_cache qs : forall a d cap,
  cache_valid a d ->
  Forall (in_range (PyList.len a)) qs ->
  exists outs a' c',
    run_no_cache qs a = (Ok outs, a')
    /\ run_with_cache qs (mkStore a (LRUCache.mk cap d)) = (Ok outs, mkStore a' c').
Proof.
  induction qs as [|[L R|i v] qs IH]; intros a d cap Hv Hr.
  - exists [], a, (LRUCache.mk cap d). split; reflexivity.
  - inversion Hr as [|? ? HLR Hr']; subst. cbn in HLR.
    cbn [run_no_cache run_with_cache]. unfold bind at 1 3.
    rewrite range_sum_no_cache_eq.
    destruct (OrderedDict.getitem (L, R) d) as [w0|] eqn:E.
    + destruct (range_sum_with_cache_hit L R w0 a (LRUCache.mk cap d) E) as [w [-> Hw]].
      cbn [LRUCache.cache LRUCache.capacity] in *.
      destruct (Hv L R w Hw) as [_ ->].
      destruct (IH a (remove_key (L, R) d ++ [((L, R), w0)]) cap) as (outs & a' & c' & H1 & H2).
      * intros L' R' s' Hin. apply Hv.
        apply in_app_iff in Hin as [Hin|[Hin|[]]].
        -- eapply remove_key_incl; eauto.
        -- rewrite <- Hin. now apply getitem_in.
      * exact Hr'.
      * exists (PyList.sum (PyList.slice a L (R + 1)) :: outs), a', c'.
        unfold bind. rewrite H1, H2. split; reflexivity.
    + rewrite (range_sum_with_cache_miss L R a (LRUCache.mk cap d) E).
      cbn [LRUCache.cache LRUCache.capacity].
      destruct (IH a (put_dict cap (L, R) (PyList.sum (PyList.slice a L (R + 1))) d) cap)
        as (outs & a' & c' & H1 & H2).
      * intros L' R' s' Hin. apply put_dict_incl in Hin as [Hin|Hin].
        -- injection Hin as -> -> ->. split; [exact HLR | reflexivity].
        -- now apply Hv.
      * exact Hr'.
      * exists (PyList.sum (PyList.slice a L (R + 1)) :: outs), a', c'.
        unfold bind. rewrite H1, H2. split; reflexivity.
  - inversion Hr as [|? ? Hi Hr']; subst. cbn in Hi.
    cbn [run_no_cache run_with_cache]. unfold bind at 1 2.
    unfold update_no_cache.
    rewrite setitem_in_bounds, update_with_cache_eq by lia.
    destruct (Z.ltb_spec i 0); [lia|].
    cbn [LRUCache.cache LRUCache.capacity].
    apply IH.
    + now apply cache_valid_update.
    + now rewrite len_set_nth.
Qed.

(** [C1] Cache transparency.  For every array, every capacity and every
    sequence of in-range range queries and point updates, the run through
    [range_sum_with_cache]/[update_with_cache] over a fresh [LRUCache]
    completes and returns, query by query, the sums returned by the run
    through [range_sum_no_cache]/[update_no_cache]. *)
Theorem cache_transparency (a : list Z) (capacity : Z) (c0 : LRUCache.t)
        (queries : list query) :
  LRUCache.__init__ capacity = Ok c0 ->
  Forall (in_range (PyList.len a)) queries ->
  exists outs a' c',
    run_no_cache queries a = (Ok outs, a')
    /\ run_with_cache queries (mkStore a c0) = (Ok outs, mkStore a' c').
Proof.
  intros [= <-] Hr. apply transparency_from_valid_cache; [|exact Hr].
  intros L R s [].
Qed.

Lemma cache_transparency_witness :
  exists outs a' c',
    run_no_cache [Range 1 3; Range 1 3; Update 2 10; Range 1 3; Range 0 4] [1; 2; 3; 4; 5]
      = (Ok outs, a')
    /\ run_with_cache [Range 1 3; Range 1 3; Update 2 10; Range 1 3; Range 0 4]
         (mkStore [1; 2; 3; 4; 5] (LRUCache.mk 1 []))
      = (Ok outs, mkStore a' c').
Proof.
  apply (cache_transparency [1; 2; 3; 4; 5] 1 (LRUCache.mk 1 [])).
  - reflexivity.
  - repeat constructor; cbn; lia.
Defined.

(** The scenario of the specification: 9, then 16 after the update. *)
Example range_sum_scenario :
  run_with_cache [Range 1 3; Update 2 10; Range 1 3]
    (mkStore [1; 2; 3; 4; 5] (LRUCache.mk 1000 []))
  = (Ok [9; 16], mkStore [1; 2; 10; 4; 5] (LRUCache.mk 1000 [((1, 3), 16)])).
Proof. reflexivity. Qed.

(** [C9], as stated, fails: a range that runs past the end of the array is
    clipped, summed and cached, and a negative index in [-len, 0) updates
    the array from its end. *)
Lemma out_of_range_is_not_rejected :
  range_sum_with_cache 0 10 (mkStore [1; 2; 3] (LRUCache.mk 2 []))
    = (Ok 6, mkStore [1; 2; 3] (LRUCache.mk 2 [((0, 10), 6)]))
  /\ range_sum_no_cache 0 10 [1; 2; 3] = (Ok 6, [1; 2; 3])
  /\ update_with_cache (-1) 9 (mkStore [1; 2; 3] (LRUCache.mk 2 [((0, 2), 6)]))
    = (Ok tt, mkStore [1; 2; 9] (LRUCache.mk 2 [((0, 2), 6)])).
Proof. repeat split; reflexivity. Qed.

(** [C9], amended.  An update whose index is at least the length of the
    array, or below minus that length, raises [IndexError] with the array
    and the cache as they were.  A range query never fails, whatever its
    bounds: it leaves the array as it was and, without a cache or on a
    cache miss, returns the sum of the slice [array[L:R+1]], whose bounds
    Python clips to the array. *)
Theorem out_of_range_behaviour (a : list Z) (c : LRUCache.t) :
  (forall i v, i < - PyList.len a \/ PyList.len a <= i ->
     update_with_cache i v (mkStore a c) = (Raise IndexError, mkStore a c)
     /\ update_no_cache i v a = (Raise IndexError, a))
  /\ (forall L R,
        range_sum_no_cache L R a = (Ok (PyList.sum (PyList.slice a L (R + 1))), a)
        /\ exists s c',
             range_sum_with_cache L R (mkStore a c) = (Ok s, mkStore a c')
             /\ (OrderedDict.getitem (L, R) (LRUCache.cache c) = None ->
                 s = PyList.sum (PyList.slice a L (R + 1)))).
Proof.
  split.
  - intros i v H. split.
    + now apply update_with_cache_raises.
    + now apply setitem_out_of_bounds.
  - intros L R. split; [reflexivity|].
    destruct (OrderedDict.getitem (L, R) (LRUCache.cache c)) as [w0|] eqn:E.
    + destruct (range_sum_with_cache_hit L R w0 a c E) as [w [-> _]].
      do 2 eexists. split; [reflexivity | discriminate].
    + rewrite (range_sum_with_cache_miss L R a c E).
      do 2 eexists. split; [reflexivity | reflexivity].
Qed.

Lemma out_of_range_behaviour_witness :
  update_with_cache 3 9 (mkStore [1; 2; 3] (LRUCache.mk 2 [((0, 2), 6)]))
    = (Raise IndexError, mkStore [1; 2; 3] (LRUCache.mk 2 [((0, 2), 6)]))
  /\ update_no_cache 3 9 [1; 2; 3] = (Raise IndexError, [1; 2; 3]).
Proof.
  destruct (out_of_range_behaviour [1; 2; 3] (LRUCache.mk 2 [((0, 2), 6)])) as [H _].
  apply (H 3 9). cbn. lia.
Defined.

(** ** Binary search trees and their in-order traversal *)

Lemma all_keys_node P k v l r :
  all_keys P (SplayNode k v l r) <-> all_keys P l /\ P k /\ all_keys P r.
Proof.
  unfold all_keys, tree_keys. cbn. rewrite map_app, Forall_app. cbn.
  rewrite Forall_cons_iff. tauto.
Qed.

Lemma all_keys_nil P : all_keys P Nil.
Proof. constructor. Qed.

Lemma all_keys_impl (P Q : Z -> Prop) t :
  (forall x, P x -> Q x) -> all_keys P t -> all_keys Q t.
Proof. intros H. apply Forall_impl. exact H. Qed.

Lemma all_keys_inorder P t t' : inorder t' = inorder t -> all_keys P t -> all_keys P t'.
Proof. unfold all_keys, tree_keys. now intros ->. Qed.

Lemma sorted_app_iff (l1 l2 : list Z) (k : Z) :
  StronglySorted Z.lt (l1 ++ k :: l2) <->
  StronglySorted Z.lt l1 /\ StronglySorted Z.lt l2
  /\ Forall (fun x => x < k) l1 /\ Forall (fun x => k < x) l2.
Proof.
  induction l1 as [|x l1 IH]; cbn.
  - split.
    + intros H. inversion H; subst. repeat split; auto; constructor.
    + intros (_ & H2 & _ & H4). now constructor.
  - split.
    + intros H. inversion H as [|? ? Hs Hf]; subst. apply IH in Hs.
      destruct Hs as (H1 & H2 & H3 & H4). apply Forall_app in Hf as [Hf1 Hf2].
      inversion Hf2; subst. repeat split; auto; constructor; auto.
    + intros (H1 & H2 & H3 & H4). inversion H1; subst. inversion H3; subst.
      constructor.
      * apply IH. auto.
      * apply Forall_app. split; [assumption|]. constructor; [assumption|].
        revert H4. apply Forall_impl. intros; lia.
Qed.

Lemma bst_sorted t : bst t <-> StronglySorted Z.lt (tree_keys t).
Proof.
  induction t as [|k v l IHl r IHr]; cbn.
  - split; [constructor | trivial].
  - unfold tree_keys in *. cbn. rewrite map_app. cbn.
    rewrite sorted_app_iff, IHl, IHr. unfold all_keys, tree_keys. tauto.
Qed.

Lemma bst_inorder t t' : inorder t' = inorder t -> bst t -> bst t'.
Proof. rewrite !bst_sorted. unfold tree_keys. now intros ->. Qed.

(** Induction that offers the hypothesis on the four grandchildren, which
    is where [_splay] recurses. *)
Lemma tree_ind2 (P : tree -> Prop) :
  P Nil ->
  (forall k v l r,
      (forall lk lv ll lr, l = SplayNode lk lv ll lr -> P ll /\ P lr) ->
      (forall xk xv rl rr, r = SplayNode xk xv rl rr -> P rl /\ P rr) ->
      P (SplayNode k v l r)) ->
  forall t, P t.
Proof.
  intros HN HS.
  assert (forall t, P t /\ (forall k v l r, t = SplayNode k v l r -> P l /\ P r)) as H.
  { induction t as [|k v l [IHl1 IHl2] r [IHr1 IHr2]].
    - split; [exact HN | discriminate].
    - split.
      + apply HS; eauto.
      + intros ? ? ? ? [= -> -> -> ->]. auto. }
  intros t. apply H.
Qed.

(** ** The splay operation *)

(** Bookkeeping for bounds on the keys of subtrees: [keys_facts] opens the
    hypotheses, [transport] carries a bound across an equality of in-order
    traversals, [keys_goal] closes bounds by weakening. *)
Ltac keys_facts :=
  repeat match goal with
  | H : _ /\ _ |- _ => destruct H
  | H : all_keys _ (SplayNode _ _ _ _) |- _ => apply all_keys_node in H
  | H : bst (SplayNode _ _ _ _) |- _ => cbn [bst] in H
  | H : splits_at _ (SplayNode _ _ _ _) |- _ => cbn [splits_at] in H
  | H : bst ?t -> _, H' : bst ?t |- _ => specialize (H H')
  end.

Ltac transport :=
  repeat match goal with
  | E : inorder ?t' = inorder ?t, H : all_keys ?P ?t |- _ =>
      lazymatch goal with
      | _ : all_keys P t' |- _ => fail
      | _ => pose proof (all_keys_inorder P t t' E H)
      end
  end.

Ltac keys_goal :=
  repeat match goal with
  | |- _ /\ _ => split
  | |- all_keys _ (SplayNode _ _ _ _) => apply all_keys_node
  | |- all_keys _ Nil => apply all_keys_nil
  | |- splits_at _ (SplayNode _ _ _ _) => cbn [splits_at]
  | H : all_keys _ ?t |- all_keys _ ?t =>
      solve [revert H; apply all_keys_impl; intros; lia]
  | |- _ < _ => lia
  end.

Ltac inorder_eq :=
  cbn [inorder] in *;
  repeat match goal with
  | H : _ = inorder ?t |- _ => rewrite <- H; clear H
  end;
  repeat (rewrite <- app_assoc; cbn [app]);
  reflexivity.

Ltac splay_done :=
  eexists; split; [reflexivity|]; split;
  [ inorder_eq
  | intros; keys_facts; transport; keys_facts; keys_goal ].

(** [_splay] never raises, keeps the in-order sequence of (key, value)
    pairs, and on a search tree leaves at the root the node that separates
    the keys below [key] from those above. *)
Lemma _splay_spec : forall t key,
  exists t', _splay t key = Ok t' /\ inorder t' = inorder t
             /\ (bst t -> splits_at key t').
Proof.
  intros t key. induction t as [|rk rv l r IHl IHr] using tree_ind2.
  - exists Nil. cbn. auto.
  - cbn [_splay].
    destruct (Z.eqb_spec rk key) as [->|Hne]; [splay_done|].
    destruct (Z.ltb_spec key rk) as [Hlt|Hge].
    + destruct l as [|lk lv ll lr]; [splay_done|].
      destruct (IHl _ _ _ _ eq_refl) as [(ll' & Hll & Ill & Sll) (lr' & Hlr & Ilr & Slr)].
      destruct (Z.ltb_spec key lk) as [Hlt2|Hge2].
      * rewrite Hll. cbn. destruct ll' as [|ak av al ar]; splay_done.
      * destruct (Z.gtb_spec key lk) as [Hgt2|Hle2].
        -- rewrite Hlr. cbn. destruct lr' as [|ak av al ar]; splay_done.
        -- cbn. splay_done.
    + destruct r as [|xk xv rl rr]; [splay_done|].
      destruct (IHr _ _ _ _ eq_refl) as [(rl' & Hrl & Irl & Srl) (rr' & Hrr & Irr & Srr)].
      destruct (Z.gtb_spec key xk) as [Hgt2|Hle2].
      * rewrite Hrr. cbn. destruct rr' as [|ak av al ar]; splay_done.
      * destruct (Z.ltb_spec key xk) as [Hlt2|Hge2].
        -- rewrite Hrl. cbn. destruct rl' as [|ak av al ar]; splay_done.
        -- cbn. splay_done.
Qed.

Lemma search_spec key t :
  exists t',
    _splay t key = Ok t'
    /\ inorder t' = inorder t
    /\ (bst t -> splits_at key t')
    /\ search key t =
       (Ok match t' with
           | SplayNode k v _ _ => if k =? key then Some v else None
           | Nil => None
           end, t').
Proof.
  destruct (_splay_spec t key) as (t' & Hs & Hi & Hb).
  exists t'. repeat split; auto.
  unfold search, bind, splay_root, get_state. rewrite Hs.
  destruct t' as [|k v l r]; [reflexivity|]. destruct (k =? key); reflexivity.
Qed.

Lemma search_hit_in key t v t' :
  search key t = (Ok (Some v), t') -> In (key, v) (inorder t) /\ inorder t' = inorder t.
Proof.
  destruct (search_spec key t) as (t1 & _ & Hi & _ & ->).
  intros [= Hv <-]. split; [|exact Hi]. rewrite <- Hi.
  destruct t1 as [|k w l r]; [discriminate|].
  destruct (Z.eqb_spec k key); [|discriminate].
  injection Hv as ->. subst. cbn. apply in_app_iff. right. now left.
Qed.

Lemma search_hit_bst key t :
  bst t -> In key (tree_keys t) ->
  exists v l r,
    search key t = (Ok (Some v), SplayNode key v l r) /\ In (key, v) (inorder t).
Proof.
  intros Hb Hin.
  destruct (search_spec key t) as (t1 & _ & Hi & Hs & Hsearch).
  specialize (Hs Hb). unfold tree_keys in Hin. rewrite <- Hi in Hin.
  destruct t1 as [|k w l r]; [contradiction|].
  cbn in Hin, Hs. destruct Hs as [Hl Hr].
  rewrite map_app in Hin. cbn in Hin.
  apply in_app_iff in Hin as [Hin|[Hin|Hin]].
  - unfold all_keys, tree_keys in Hl. rewrite Forall_forall in Hl.
    apply Hl in Hin. lia.
  - subst k. rewrite Z.eqb_refl in Hsearch. exists w, l, r. split; [exact Hsearch|].
    rewrite <- Hi. cbn. apply in_app_iff. right. now left.
  - unfold all_keys, tree_keys in Hr. rewrite Forall_forall in Hr.
    apply Hr in Hin. lia.
Qed.

Lemma insert_spec key value t :
  exists t',
    insert key value t = (Ok tt, t')
    /\ (forall e, In e (inorder t') -> e = (key, value) \/ In e (inorder t))
    /\ (bst t -> bst t').
Proof.
  destruct t as [|k0 v0 l0 r0].
  - eexists. split; [reflexivity|]. split.
    + cbn. intuition.
    + intros _. cbn. repeat split; apply all_keys_nil.
  - destruct (_splay_spec (SplayNode k0 v0 l0 r0) key) as (t1 & Hs & Hi & Hb).
    unfold insert, bind, get_state, splay_root. rewrite Hs.
    destruct t1 as [|k v l r].
    { cbn in Hi. destruct (inorder l0); discriminate. }
    assert (forall e, In e (inorder l) \/ e = (k, v) \/ In e (inorder r) ->
                      In e (inorder (SplayNode k0 v0 l0 r0))) as Hsub.
    { intros e He. rewrite <- Hi. cbn. apply in_app_iff. cbn.
      destruct He as [He|[He|He]]; auto. }
    destruct (Z.eqb_spec k key) as [->|Hne]; [|destruct (Z.ltb_spec key k)].
    + eexists. split; [reflexivity|]. split.
      * intros e He. cbn in He. apply in_app_iff in He as [He|[He|He]]; auto.
      * intros Hb0. specialize (Hb Hb0). pose proof (bst_inorder _ _ Hi Hb0) as Hb1.
        cbn in *. tauto.
    + eexists. split; [reflexivity|]. split.
      * intros e He. cbn in He.
        apply in_app_iff in He as [He|[He|[He|He]]]; auto.
      * intros Hb0. specialize (Hb Hb0). pose proof (bst_inorder _ _ Hi Hb0) as Hb1.
        keys_facts. cbn [bst]. keys_goal; auto.
    + eexists. split; [reflexivity|]. split.
      * intros e He. cbn in He.
        apply in_app_iff in He as [He|[He|He]]; auto.
        apply in_app_iff in He as [He|[He|[]]]; auto.
      * intros Hb0. specialize (Hb Hb0). pose proof (bst_inorder _ _ Hi Hb0) as Hb1.
        keys_facts. cbn [bst]. keys_goal; auto.
Qed.

Lemma tree_call_spec o t :
  exists t', tree_call o t = (Ok tt, t') /\ (bst t -> bst t').
Proof.
  destruct o as [k|k v]; unfold tree_call.
  - destruct (search_spec k t) as (t' & _ & Hi & _ & Hs).
    exists t'. unfold bind. rewrite Hs. split; [reflexivity|].
    now apply bst_inorder.
  - destruct (insert_spec k v t) as (t' & Hi & _ & Hb). eauto.
Qed.

Lemma tree_calls_spec ops : forall t,
  bst t -> exists t', for_each ops tree_call t = (Ok tt, t') /\ bst t'.
Proof.
  induction ops as [|o ops IH]; intros t Hb.
  - exists t. split; [reflexivity | exact Hb].
  - destruct (tree_call_spec o t) as (t1 & H1 & Hb1).
    destruct (IH t1 (Hb1 Hb)) as (t' & H' & Hb').
    exists t'. cbn [for_each]. unfold bind. rewrite H1. auto.
Qed.

Lemma is_splay_tree_bst t : is_splay_tree t -> bst t.
Proof.
  intros [ops H]. destruct (tree_calls_spec ops Nil I) as (t' & H' & Hb).
  congruence.
Qed.

(** [C3] Splay-to-root on hit.  For every [SplayTree] that holds a node
    with key [k], [search(k)] returns the value stored for [k], and the
    root of the tree afterwards is a node with key [k] and that value. *)
Theorem search_hit_splays_to_root (t : tree) (k : Z) :
  is_splay_tree t ->
  In k (tree_keys t) ->
  exists v l r,
    search k t = (Ok (Some v), SplayNode k v l r) /\ In (k, v) (inorder t).
Proof.
  intros Ht Hin. apply search_hit_bst; [|exact Hin]. now apply is_splay_tree_bst.
Qed.

Lemma search_hit_splays_to_root_witness :
  exists v l r,
    search 2 (SplayNode 3 30 (SplayNode 2 20 (SplayNode 1 10 Nil Nil) Nil) Nil)
      = (Ok (Some v), SplayNode 2 v l r)
    /\ In (2, v) (inorder (SplayNode 3 30 (SplayNode 2 20 (SplayNode 1 10 Nil Nil) Nil) Nil)).
Proof.
  apply (search_hit_splays_to_root
           (SplayNode 3 30 (SplayNode 2 20 (SplayNode 1 10 Nil Nil) Nil) Nil) 2).
  - exists [Insert 1 10; Insert 2 20; Insert 3 30]. reflexivity.
  - cbn. auto.
Defined.

(** [C4] BST ordering preserved.  Starting from the empty [SplayTree],
    every sequence of [insert] and [search] calls runs to completion and
    leaves a tree whose in-order traversal lists its keys in strictly
    increasing order. *)
Theorem bst_order_preserved (ops : list tree_op) :
  exists t,
    for_each ops tree_call reset_splay_tree = (Ok tt, t)
    /\ StronglySorted Z.lt (tree_keys t).
Proof.
  destruct (tree_calls_spec ops Nil I) as (t & H & Hb).
  exists t. split; [exact H|]. now apply bst_sorted.
Qed.

(** [C10] Search preserves contents.  For every tree, search tree or not,
    and every key, [search] returns normally and the in-order sequence of
    (key, value) pairs afterwards is the one before: nothing is added,
    dropped or altered. *)
Theorem search_preserves_contents (t : tree) (k : Z) :
  exists r t', search k t = (Ok r, t') /\ inorder t' = inorder t.
Proof.
  destruct (search_spec k t) as (t' & _ & Hi & _ & Hs).
  eexists; exists t'. split; [exact Hs | exact Hi].
Qed.

(** ** Memoised Fibonacci *)

Lemma fib_step n : 2 <= n ->
  fib (Z.to_nat n) = fib (Z.to_nat (n - 1)) + fib (Z.to_nat (n - 2)).
Proof.
  intros H. replace (Z.to_nat n) with (S (S (Z.to_nat (n - 2)))) by lia.
  replace (Z.to_nat (n - 1)) with (S (Z.to_nat (n - 2))) by lia.
  reflexivity.
Qed.

Lemma memo_ok_inorder t t' : inorder t' = inorder t -> memo_ok t -> memo_ok t'.
Proof. unfold memo_ok. now intros ->. Qed.

Lemma memo_ok_insert n t :
  0 <= n -> memo_ok t ->
  exists t', insert n (fib (Z.to_nat n)) t = (Ok tt, t') /\ memo_ok t'.
Proof.
  intros Hn Hm. destruct (insert_spec n (fib (Z.to_nat n)) t) as (t' & Hi & Hin & _).
  exists t'. split; [exact Hi|]. intros k v Hkv Hk.
  destruct (Hin _ Hkv) as [[= -> ->]|H]; [reflexivity | now apply Hm].
Qed.

Lemma fibonacci_splay_spec depth : forall n t,
  0 <= n -> (Z.to_nat n < depth)%nat -> memo_ok t ->
  exists t', fibonacci_splay depth n t = (Ok (fib (Z.to_nat n)), t') /\ memo_ok t'.
Proof.
  induction depth as [|depth IH]; intros n t Hn Hd Hm; [lia|].
  cbn [fibonacci_splay]. unfold bind at 1.
  destruct (search n t) as [[[v|]|e] t1] eqn:Hs.
  - apply search_hit_in in Hs as [Hin Hi].
    rewrite (Hm _ _ Hin Hn). exists t1. split; [reflexivity|].
    now apply (memo_ok_inorder t).
  - destruct (search_spec n t) as (t1' & _ & Hi & _ & Hs'). rewrite Hs in Hs'.
    injection Hs' as _ <-. pose proof (memo_ok_inorder t t1 Hi Hm) as Hm1.
    destruct (Z.ltb_spec n 2) as [Hlt|Hge].
    + unfold bind, ret. assert (n = fib (Z.to_nat n)) as Hfib.
      { assert (n = 0 \/ n = 1) as [->| ->] by lia; reflexivity. }
      destruct (memo_ok_insert n t1 Hn Hm1) as (t2 & Hi2 & Hm2).
      rewrite <- Hfib in Hi2 at 1. rewrite Hi2. exists t2. split; [|exact Hm2].
      now rewrite <- Hfib.
    + destruct (IH (n - 1) t1) as (t2 & H2 & Hm2); [lia | lia | exact Hm1 |].
      destruct (IH (n - 2) t2) as (t3 & H3 & Hm3); [lia | lia | exact Hm2 |].
      unfold bind, ret. rewrite H2, H3. rewrite <- (fib_step n Hge).
      destruct (memo_ok_insert n t3 Hn Hm3) as (t4 & Hi4 & Hm4).
      rewrite Hi4. exists t4. split; [reflexivity | exact Hm4].
  - destruct (search_spec n t) as (t1' & _ & _ & _ & Hs'). congruence.
Qed.

(** [C5], as stated, fails: the tree is trusted, so a tree that holds a
    wrong value for [n] makes [fibonacci_splay(n, tree)] return it.  The
    tree below is the one left by [insert(5, 100)] on an empty tree. *)
Lemma fibonacci_splay_trusts_the_tree :
  insert 5 100 reset_splay_tree = (Ok tt, SplayNode 5 100 Nil Nil)
  /\ fibonacci_splay 10 5 (SplayNode 5 100 Nil Nil) = (Ok 100, SplayNode 5 100 Nil Nil)
  /\ 100 <> fib 5.
Proof. repeat split; try reflexivity. discriminate. Qed.

(** [C5], amended.  For every [n >= 0], every tree in which each stored
    pair [(k, v)] with [k >= 0] has [v = fib(k)] (the empty tree, and every
    tree left by earlier calls of [fibonacci_splay] on such a tree), and
    more than [n] stack frames available, [fibonacci_splay(n, tree)]
    returns the [n]-th Fibonacci number and leaves such a tree. *)
Theorem fibonacci_splay_correct (depth : nat) (n : Z) (t : tree) :
  0 <= n ->
  (Z.to_nat n < depth)%nat ->
  memo_ok t ->
  exists t', fibonacci_splay depth n t = (Ok (fib (Z.to_nat n)), t') /\ memo_ok t'.
Proof. apply fibonacci_splay_spec. Qed.

Lemma fibonacci_splay_correct_witness :
  exists t', fibonacci_splay 30 20 Nil = (Ok (fib (Z.to_nat 20)), t') /\ memo_ok t'.
Proof.
  apply (fibonacci_splay_correct 30 20 Nil).
  - lia.
  - cbn. lia.
  - intros k v [].
Defined.

Example fibonacci_splay_values :
  fst (fibonacci_splay 5 0 Nil) = Ok 0
  /\ fst (fibonacci_splay 5 1 Nil) = Ok 1
  /\ fst (fibonacci_splay 15 10 Nil) = Ok 55
  /\ fst (fibonacci_splay 25 20 Nil) = Ok 6765.
Proof. repeat split; vm_compute; reflexivity. Qed.

(** ** More on the cache: recency, overwriting, eviction *)

Lemma remove_key_middle k v d1 d2 :
  NoDup (OrderedDict.keys (d1 ++ (k, v) :: d2)) ->
  remove_key k (d1 ++ (k, v) :: d2) = d1 ++ d2.
Proof.
  induction d1 as [|[k' v'] d1 IH]; cbn; intros H.
  - now rewrite key_eqb_refl.
  - inversion H as [|? ? Hn Hnd]; subst.
    destruct (OrderedDict.key_eqb k k') eqn:E.
    + apply key_eqb_eq in E. subst k'. exfalso. apply Hn.
      unfold OrderedDict.keys. rewrite map_app. apply in_app_iff. right. now left.
    + f_equal. now apply IH.
Qed.

Lemma nodup_keys_middle k v d1 d2 :
  NoDup (OrderedDict.keys (d1 ++ (k, v) :: d2)) ->
  NoDup (OrderedDict.keys (d1 ++ d2)) /\ ~ In k (OrderedDict.keys (d1 ++ d2)).
Proof.
  unfold OrderedDict.keys. rewrite !map_app. cbn. intros H. split.
  - eapply NoDup_remove_1; eauto.
  - eapply NoDup_remove_2; eauto.
Qed.

Lemma nodup_snoc {A : Type} (l : list A) (x : A) :
  NoDup l -> ~ In x l -> NoDup (l ++ [x]).
Proof.
  induction l as [|y l IH]; cbn; intros Hnd Hx.
  - constructor; [tauto | constructor].
  - inversion Hnd; subst. constructor.
    + rewrite in_app_iff. cbn. intuition.
    + apply IH; tauto.
Qed.

Lemma put_dict_nodup cap k v d :
  NoDup (OrderedDict.keys d) -> NoDup (OrderedDict.keys (put_dict cap k v d)).
Proof.
  intros H. unfold put_dict.
  assert (NoDup (OrderedDict.keys (remove_key k d ++ [(k, v)]))) as H1.
  { unfold OrderedDict.keys. rewrite map_app. cbn.
    apply nodup_snoc; [now apply remove_key_keys_nodup | now apply remove_key_not_in]. }
  destruct (OrderedDict.len _ >? cap); [|exact H1].
  destruct (remove_key k d ++ [(k, v)]); cbn in *; [constructor | now inversion H1].
Qed.

Lemma get_hit_middle cap d1 k v d2 :
  NoDup (OrderedDict.keys (d1 ++ (k, v) :: d2)) ->
  LRUCache.get k (LRUCache.mk cap (d1 ++ (k, v) :: d2))
  = (Ok (Some v), LRUCache.mk cap (d1 ++ d2 ++ [(k, v)])).
Proof.
  intros Hnd.
  rewrite (get_hit_nodup k v); cbn [LRUCache.cache LRUCache.capacity].
  - now rewrite (remove_key_middle _ _ _ _ Hnd), app_assoc.
  - exact Hnd.
  - apply in_app_iff. right. now left.
Qed.

(** [get] on a key that is not cached answers [None] and leaves the cache
    as it was; on a cached key it returns the stored value and moves that
    entry behind all others, whose order is kept. *)
Theorem get_refreshes_recency (cap : Z) (d : OrderedDict.t) (k : OrderedDict.key) :
  (~ In k (OrderedDict.keys d) ->
   LRUCache.get k (LRUCache.mk cap d) = (Ok None, LRUCache.mk cap d))
  /\ (forall d1 v d2,
        d = d1 ++ (k, v) :: d2 ->
        NoDup (OrderedDict.keys d) ->
        LRUCache.get k (LRUCache.mk cap d)
        = (Ok (Some v), LRUCache.mk cap (d1 ++ d2 ++ [(k, v)]))).
Proof.
  split.
  - intros H. apply get_miss. now apply getitem_none_iff.
  - intros d1 v d2 -> Hnd. now apply get_hit_middle.
Qed.

Lemma get_refreshes_recency_witness :
  LRUCache.get (9, 9) (LRUCache.mk 5 [((0, 1), 3); ((2, 4), 7); ((5, 5), 1)])
    = (Ok None, LRUCache.mk 5 [((0, 1), 3); ((2, 4), 7); ((5, 5), 1)])
  /\ LRUCache.get (0, 1) (LRUCache.mk 5 [((0, 1), 3); ((2, 4), 7); ((5, 5), 1)])
    = (Ok (Some 3), LRUCache.mk 5 [((2, 4), 7); ((5, 5), 1); ((0, 1), 3)]).
Proof.
  split.
  - apply (get_refreshes_recency 5 [((0, 1), 3); ((2, 4), 7); ((5, 5), 1)] (9, 9)).
    cbn. intuition discriminate.
  - apply (proj2 (get_refreshes_recency 5 [((0, 1), 3); ((2, 4), 7); ((5, 5), 1)] (0, 1))
             [] 3 [((2, 4), 7); ((5, 5), 1)]).
    + reflexivity.
    + repeat constructor; cbn; intuition discriminate.
Defined.

(** What was [put] can be read back: on a cache of capacity at least one,
    [get k] right after [put k v] returns [v]. *)
Theorem put_then_get (cap : Z) (d : OrderedDict.t) (k : OrderedDict.key) (v : Z) :
  1 <= cap ->
  NoDup (OrderedDict.keys d) ->
  exists c1 c2,
    LRUCache.put k v (LRUCache.mk cap d) = (Ok tt, c1)
    /\ LRUCache.get k c1 = (Ok (Some v), c2).
Proof.
  intros Hcap Hnd. rewrite put_eq. cbn [LRUCache.cache LRUCache.capacity].
  do 2 eexists. split; [reflexivity|].
  apply get_hit_nodup; cbn [LRUCache.cache].
  - now apply put_dict_nodup.
  - unfold put_dict.
    destruct (Z.gtb_spec (OrderedDict.len (remove_key k d ++ [(k, v)])) cap) as [H|H].
    + destruct (remove_key k d) as [|e r]; cbn in *.
      * unfold OrderedDict.len in H. cbn in H. lia.
      * apply in_app_iff. right. now left.
    + apply in_app_iff. right. now left.
Qed.

Lemma put_then_get_witness :
  exists c1 c2,
    LRUCache.put (1, 2) 42 (LRUCache.mk 1 [((0, 0), 7)]) = (Ok tt, c1)
    /\ LRUCache.get (1, 2) c1 = (Ok (Some 42), c2).
Proof.
  apply (put_then_get 1 [((0, 0), 7)] (1, 2) 42).
  - lia.
  - repeat constructor; cbn; intuition discriminate.
Defined.

(** [put] on a key that is already cached replaces its value and moves the
    entry behind all others; nothing is evicted and the number of entries
    is unchanged. *)
Theorem put_overwrites (cap : Z) (d1 d2 : OrderedDict.t)
        (k : OrderedDict.key) (v0 v : Z) :
  NoDup (OrderedDict.keys (d1 ++ (k, v0) :: d2)) ->
  OrderedDict.len (d1 ++ (k, v0) :: d2) <= cap ->
  LRUCache.put k v (LRUCache.mk cap (d1 ++ (k, v0) :: d2))
    = (Ok tt, LRUCache.mk cap (d1 ++ d2 ++ [(k, v)]))
  /\ OrderedDict.len (d1 ++ d2 ++ [(k, v)]) = OrderedDict.len (d1 ++ (k, v0) :: d2).
Proof.
  intros Hnd Hlen.
  assert (OrderedDict.len (d1 ++ d2 ++ [(k, v)]) = OrderedDict.len (d1 ++ (k, v0) :: d2))
    as Hsame.
  { unfold OrderedDict.len. rewrite !length_app. cbn [length]. lia. }
  split; [|exact Hsame].
  rewrite put_eq. cbn [LRUCache.cache LRUCache.capacity]. unfold put_dict.
  rewrite (remove_key_middle _ _ _ _ Hnd), <- app_assoc.
  destruct (Z.gtb_spec (OrderedDict.len (d1 ++ d2 ++ [(k, v)])) cap); [lia | reflexivity].
Qed.

Lemma put_overwrites_witness :
  LRUCache.put (0, 1) 8 (LRUCache.mk 2 ([] ++ ((0, 1), 3) :: [((2, 4), 7)]))
    = (Ok tt, LRUCache.mk 2 ([] ++ [((2, 4), 7)] ++ [((0, 1), 8)]))
  /\ OrderedDict.len ([] ++ [((2, 4), 7)] ++ [((0, 1), 8)])
     = OrderedDict.len ([] ++ ((0, 1), 3) :: [((2, 4), 7)]).
Proof.
  apply (put_overwrites 2 [] [((2, 4), 7)] (0, 1) 3 8).
  - repeat constructor; cbn; intuition discriminate.
  - cbn. lia.
Defined.

(** [put] of a key that is not cached: below capacity the entry is
    appended and nothing is evicted; at capacity exactly the oldest entry
    is dropped and the others keep their order. *)
Theorem put_new_key (cap : Z) (d : OrderedDict.t) (k : OrderedDict.key) (v : Z) :
  ~ In k (OrderedDict.keys d) ->
  (OrderedDict.len d < cap ->
   LRUCache.put k v (LRUCache.mk cap d) = (Ok tt, LRUCache.mk cap (d ++ [(k, v)])))
  /\ (forall e d', d = e :: d' -> OrderedDict.len d = cap ->
      LRUCache.put k v (LRUCache.mk cap d) = (Ok tt, LRUCache.mk cap (d' ++ [(k, v)]))).
Proof.
  intros Hk. split.
  - intros Hlen. rewrite put_eq. cbn [LRUCache.cache LRUCache.capacity].
    unfold put_dict. rewrite (remove_key_absent _ _ Hk).
    destruct (Z.gtb_spec (OrderedDict.len (d ++ [(k, v)])) cap) as [H|H]; [|reflexivity].
    unfold OrderedDict.len in *. rewrite length_app in H. cbn in H. lia.
  - intros e d' -> Hlen. now apply put_full.
Qed.

Lemma put_new_key_witness :
  LRUCache.put (5, 5) 1 (LRUCache.mk 2 [((0, 1), 3); ((2, 4), 7)])
    = (Ok tt, LRUCache.mk 2 [((2, 4), 7); ((5, 5), 1)]).
Proof.
  apply (proj2 (put_new_key 2 [((0, 1), 3); ((2, 4), 7)] (5, 5) 1
                  ltac:(cbn; intuition discriminate))
           ((0, 1), 3) [((2, 4), 7)]); reflexivity.
Defined.

(** Recency refresh: when the oldest entry of a full cache is read by
    [get] before a new key is [put], it is the next oldest entry that is
    evicted, and the entry that was read stays. *)
Theorem get_protects_from_eviction (cap : Z) (k : OrderedDict.key) (v : Z)
        (e : OrderedDict.key * Z) (d' : OrderedDict.t) (k' : OrderedDict.key) (v' : Z) :
  NoDup (OrderedDict.keys ((k, v) :: e :: d')) ->
  OrderedDict.len ((k, v) :: e :: d') = cap ->
  ~ In k' (OrderedDict.keys ((k, v) :: e :: d')) ->
  (LRUCache.get k ;; LRUCache.put k' v') (LRUCache.mk cap ((k, v) :: e :: d'))
  = (Ok tt, LRUCache.mk cap (d' ++ [(k, v); (k', v')])).
Proof.
  intros Hnd Hlen Hk'. unfold bind.
  pose proof (get_hit_middle cap [] k v (e :: d') Hnd) as Hget.
  cbn [app] in Hget. rewrite Hget. rewrite put_full.
  - now rewrite <- app_assoc.
  - unfold OrderedDict.keys in *. cbn [map] in *. rewrite map_app.
    cbn in *. rewrite in_app_iff. cbn. intuition.
  - unfold OrderedDict.len in *. cbn [length] in *. rewrite length_app. cbn. lia.
Qed.

Lemma get_protects_from_eviction_witness :
  (LRUCache.get (0, 1) ;; LRUCache.put (5, 5) 1)
    (LRUCache.mk 2 [((0, 1), 3); ((2, 4), 7)])
  = (Ok tt, LRUCache.mk 2 [((0, 1), 3); ((5, 5), 1)]).
Proof.
  apply (get_protects_from_eviction 2 (0, 1) 3 ((2, 4), 7) [] (5, 5) 1).
  - repeat constructor; cbn; intuition discriminate.
  - reflexivity.
  - cbn; intuition discriminate.
Defined.

(** [invalidate] returns normally and removes exactly the entries whose
    key satisfies the condition; the entries that remain keep their values
    and their order. *)
Theorem invalidate_removes_exactly (f : OrderedDict.key -> bool) (c : LRUCache.t) :
  LRUCache.invalidate f c =
  (Ok tt,
   LRUCache.mk (LRUCache.capacity c)
     (filter (fun e => negb (f (fst e))) (LRUCache.cache c))).
Proof. apply invalidate_eq. Qed.

(** ** More on range sums and updates *)

Lemma nodup_keys_filter (g : OrderedDict.key * Z -> bool) (d : OrderedDict.t) :
  NoDup (OrderedDict.keys d) -> NoDup (OrderedDict.keys (filter g d)).
Proof.
  induction d as [|e d IH]; cbn; intros H; [constructor|].
  inversion H as [|? ? Hn Hnd]; subst.
  destruct (g e); cbn; [|now apply IH].
  constructor; [|now apply IH].
  intros Hin. apply Hn. unfold OrderedDict.keys in *.
  apply in_map_iff in Hin as [x [Hx Hin]]. apply filter_In in Hin as [Hin _].
  rewrite <- Hx. now apply in_map.
Qed.

Lemma slice_single a i v :
  0 <= i < PyList.len a ->
  PyList.slice (PyList.set_nth a (Z.to_nat i) v) i (i + 1) = [v].
Proof.
  intros Hi. rewrite slice_in_range by (rewrite len_set_nth; lia).
  replace (Z.to_nat (i + 1 - i)) with 1%nat by lia.
  unfold PyList.len in Hi.
  assert (Z.to_nat i < length a)%nat as Hlt by lia.
  generalize (Z.to_nat i) Hlt. clear Hi Hlt. 
  induction a as [|x a IH]; intros n Hn; cbn in Hn; [lia|].
  destruct n as [|n]; cbn; [reflexivity|]. apply IH. lia.
Qed.

Lemma run_with_cache_keeps_valid qs : forall a d cap,
  cache_valid a d ->
  Forall (in_range (PyList.len a)) qs ->
  exists outs a' d',
    run_with_cache qs (mkStore a (LRUCache.mk cap d))
      = (Ok outs, mkStore a' (LRUCache.mk cap d'))
    /\ cache_valid a' d'.
Proof.
  induction qs as [|[L R|i v] qs IH]; intros a d cap Hv Hr.
  - exists [], a, d. split; [reflexivity | exact Hv].
  - inversion Hr as [|? ? HLR Hr']; subst. cbn in HLR.
    cbn [run_with_cache]. unfold bind at 1.
    destruct (OrderedDict.getitem (L, R) d) as [w0|] eqn:E.
    + destruct (range_sum_with_cache_hit L R w0 a (LRUCache.mk cap d) E) as [w [-> Hw]].
      cbn [LRUCache.cache LRUCache.capacity] in *.
      destruct (IH a (remove_key (L, R) d ++ [((L, R), w0)]) cap) as (outs & a' & d' & H1 & H2).
      * intros L' R' s' Hin. apply Hv.
        apply in_app_iff in Hin as [Hin|[Hin|[]]].
        -- eapply remove_key_incl; eauto.
        -- rewrite <- Hin. now apply getitem_in.
      * exact Hr'.
      * exists (w :: outs), a', d'. unfold bind. rewrite H1.
        split; [reflexivity | exact H2].
    + rewrite (range_sum_with_cache_miss L R a (LRUCache.mk cap d) E).
      cbn [LRUCache.cache LRUCache.capacity].
      destruct (IH a (put_dict cap (L, R) (PyList.sum (PyList.slice a L (R + 1))) d) cap)
        as (outs & a' & d' & H1 & H2).
      * intros L' R' s' Hin. apply put_dict_incl in Hin as [Hin|Hin].
        -- injection Hin as -> -> ->. split; [exact HLR | reflexivity].
        -- now apply Hv.
      * exact Hr'.
      * exists (PyList.sum (PyList.slice a L (R + 1)) :: outs), a', d'.
        unfold bind. rewrite H1. split; [reflexivity | exact H2].
  - inversion Hr as [|? ? Hi Hr']; subst. cbn in Hi.
    cbn [run_with_cache]. unfold bind at 1.
    rewrite update_with_cache_eq by lia.
    destruct (Z.ltb_spec i 0); [lia|].
    cbn [LRUCache.cache LRUCache.capacity].
    apply IH.
    + now apply cache_valid_update.
    + now rewrite len_set_nth.
Qed.

(** No stale entry: after any run of in-range queries and updates over a
    fresh cache, every entry [(L, R) -> s] that the cache holds is the sum
    of [array[L..R]] in the array as it is then. *)
Theorem cache_never_stale (a : list Z) (capacity : Z) (queries : list query) :
  Forall (in_range (PyList.len a)) queries ->
  exists outs s',
    run_with_cache queries (mkStore a (LRUCache.mk capacity [])) = (Ok outs, s')
    /\ forall L R s,
         In ((L, R), s) (LRUCache.cache (lru_cache s')) ->
         s = PyList.sum (PyList.slice (array s') L (R + 1)).
Proof.
  intros Hr.
  destruct (run_with_cache_keeps_valid queries a [] capacity) as (outs & a' & d' & H & Hv).
  - intros L R s [].
  - exact Hr.
  - exists outs. eexists. split; [exact H|]. cbn. intros L R s Hin.
    now destruct (Hv L R s Hin).
Qed.

Lemma cache_never_stale_witness :
  exists outs s',
    run_with_cache [Range 0 4; Range 1 3; Update 2 10; Range 3 4]
      (mkStore [1; 2; 3; 4; 5] (LRUCache.mk 8 [])) = (Ok outs, s')
    /\ forall L R s,
         In ((L, R), s) (LRUCache.cache (lru_cache s')) ->
         s = PyList.sum (PyList.slice (array s') L (R + 1)).
Proof.
  apply (cache_never_stale [1; 2; 3; 4; 5] 8).
  repeat constructor; cbn; lia.
Defined.

(** An update can be read back: after an in-range update of index [i] to
    [v], the range sum over [(i, i)] is [v], without a cache and with a
    cache in whatever state it was. *)
Theorem update_then_range_sum (a : list Z) (c : LRUCache.t) (i v : Z) :
  0 <= i < PyList.len a ->
  (exists a', (update_no_cache i v ;; range_sum_no_cache i i) a = (Ok v, a'))
  /\ (exists s', (update_with_cache i v ;; range_sum_with_cache i i) (mkStore a c)
                 = (Ok v, s')).
Proof.
  intros Hi.
  assert (PyList.sum (PyList.slice (PyList.set_nth a (Z.to_nat i) v) i (i + 1)) = v) as Hs.
  { rewrite slice_single by exact Hi. reflexivity. }
  split.
  - unfold bind, update_no_cache. rewrite setitem_in_bounds by lia.
    destruct (Z.ltb_spec i 0); [lia|]. rewrite range_sum_no_cache_eq, Hs. eauto.
  - unfold bind. rewrite update_with_cache_eq by lia.
    destruct (Z.ltb_spec i 0); [lia|].
    rewrite range_sum_with_cache_miss.
    + rewrite Hs. eauto.
    + cbn [LRUCache.cache]. apply getitem_none_iff. intros Hin.
      apply in_map_iff in Hin as [[k s] [Hk He]]. cbn in Hk. subst k.
      apply filter_In in He as [_ He]. cbn in He.
      rewrite Z.leb_refl in He. discriminate.
Qed.

Lemma update_then_range_sum_witness :
  (exists a', (update_no_cache 2 10 ;; range_sum_no_cache 2 2) [1; 2; 3; 4; 5] = (Ok 10, a'))
  /\ (exists s', (update_with_cache 2 10 ;; range_sum_with_cache 2 2)
                   (mkStore [1; 2; 3; 4; 5] (LRUCache.mk 3 [((2, 2), 3)]))
                 = (Ok 10, s')).
Proof.
  apply (update_then_range_sum [1; 2; 3; 4; 5] (LRUCache.mk 3 [((2, 2), 3)]) 2 10).
  cbn. lia.
Defined.

(** An in-range update changes no range sum whose range does not contain
    the updated index. *)
Theorem update_keeps_other_sums (a : list Z) (i v L R : Z) :
  0 <= i < PyList.len a ->
  0 <= L <= R /\ R < PyList.len a ->
  ~ (L <= i <= R) ->
  exists s a',
    range_sum_no_cache L R a = (Ok s, a)
    /\ (update_no_cache i v ;; range_sum_no_cache L R) a = (Ok s, a').
Proof.
  intros Hi HLR Hn. do 2 eexists. split; [apply range_sum_no_cache_eq|].
  unfold bind, update_no_cache. rewrite setitem_in_bounds by lia.
  destruct (Z.ltb_spec i 0); [lia|]. rewrite range_sum_no_cache_eq.
  rewrite slice_set_nth by assumption. reflexivity.
Qed.

Lemma update_keeps_other_sums_witness :
  exists s a',
    range_sum_no_cache 0 1 [1; 2; 3; 4; 5] = (Ok s, [1; 2; 3; 4; 5])
    /\ (update_no_cache 2 10 ;; range_sum_no_cache 0 1) [1; 2; 3; 4; 5] = (Ok s, a').
Proof.
  apply (update_keeps_other_sums [1; 2; 3; 4; 5] 2 10 0 1); cbn; lia.
Defined.

(** Invalidation is no wider than needed: after an update at a valid
    index [i], every cached range that does not contain [i] is still
    answered by [get] with its cached sum. *)
Theorem update_keeps_disjoint_entries (a : list Z) (c : LRUCache.t) (i v L R s : Z) :
  - PyList.len a <= i < PyList.len a ->
  NoDup (OrderedDict.keys (LRUCache.cache c)) ->
  In ((L, R), s) (LRUCache.cache c) ->
  ~ (L <= i <= R) ->
  exists s1 c2,
    update_with_cache i v (mkStore a c) = (Ok tt, s1)
    /\ LRUCache.get (L, R) (lru_cache s1) = (Ok (Some s), c2).
Proof.
  intros Hi Hnd Hin Hn. rewrite update_with_cache_eq by exact Hi.
  do 2 eexists. split; [reflexivity|]. cbn [lru_cache].
  apply get_hit_nodup; cbn [LRUCache.cache].
  - now apply nodup_keys_filter.
  - apply filter_In. split; [exact Hin|]. cbn.
    destruct (Z.leb_spec L i); [|reflexivity].
    destruct (Z.leb_spec i R); [lia | reflexivity].
Qed.

Lemma update_keeps_disjoint_entries_witness :
  exists s1 c2,
    update_with_cache 2 10
      (mkStore [1; 2; 3; 4; 5] (LRUCache.mk 3 [((1, 3), 9); ((0, 1), 3)]))
    = (Ok tt, s1)
    /\ LRUCache.get (0, 1) (lru_cache s1) = (Ok (Some 3), c2).
Proof.
  apply (update_keeps_disjoint_entries [1; 2; 3; 4; 5]
           (LRUCache.mk 3 [((1, 3), 9); ((0, 1), 3)]) 2 10 0 1 3).
  - cbn; lia.
  - repeat constructor; cbn; intuition discriminate.
  - cbn; auto.
  - lia.
Defined.

(** A negative index in [-len, 0) is accepted by [update_with_cache]: it
    overwrites the element at [len + i], counted from the end, but the
    invalidation compares the negative [i] itself with the cached bounds,
    so every cached range with a non-negative lower bound is kept, the
    ones that contain the overwritten element included. *)
Theorem negative_index_update_keeps_entries (a : list Z) (c : LRUCache.t) (i v : Z) :
  - PyList.len a <= i < 0 ->
  exists c',
    update_with_cache i v (mkStore a c)
    = (Ok tt, mkStore (PyList.set_nth a (Z.to_nat (i + PyList.len a)) v) c')
    /\ forall L R s, 0 <= L ->
         In ((L, R), s) (LRUCache.cache c) -> In ((L, R), s) (LRUCache.cache c').
Proof.
  intros Hi. rewrite update_with_cache_eq by lia.
  destruct (Z.ltb_spec i 0); [|lia].
  eexists. split; [reflexivity|]. cbn [LRUCache.cache].
  intros L R s HL Hin. apply filter_In. split; [exact Hin|]. cbn.
  destruct (Z.leb_spec L i); [lia | reflexivity].
Qed.

Lemma negative_index_update_keeps_entries_witness :
  exists c',
    update_with_cache (-1) 9 (mkStore [1; 2; 3] (LRUCache.mk 2 [((0, 2), 6)]))
    = (Ok tt, mkStore (PyList.set_nth [1; 2; 3] (Z.to_nat (-1 + PyList.len [1; 2; 3])) 9) c')
    /\ forall L R s, 0 <= L ->
         In ((L, R), s) [((0, 2), 6)] -> In ((L, R), s) (LRUCache.cache c').
Proof.
  apply (negative_index_update_keeps_entries [1; 2; 3] (LRUCache.mk 2 [((0, 2), 6)]) (-1) 9).
  cbn. lia.
Defined.

(** The consequence on one run: the cached sum of [(0, 2)] survives the
    update of the last element through index [-1]. *)
Example negative_index_stale_sum :
  run_no_cache [Range 0 2; Update (-1) 9; Range 0 2] [1; 2; 3] = (Ok [6; 12], [1; 2; 9])
  /\ fst (run_with_cache [Range 0 2; Update (-1) 9; Range 0 2]
            (mkStore [1; 2; 3] (LRUCache.mk 2 [])))
     = Ok [6; 6].
Proof. split; reflexivity. Qed.

(** An empty range sums to zero instead of failing: on the empty array
    for all bounds, and on any array when [R < L] with [L] and [R + 1] not
    negative. *)
Theorem empty_range_sums_to_zero (a : list Z) (L R : Z) :
  a = [] \/ (0 <= L /\ -1 <= R < L) ->
  range_sum_no_cache L R a = (Ok 0, a)
  /\ forall cap,
       fst (range_sum_with_cache L R (mkStore a (LRUCache.mk cap []))) = Ok 0.
Proof.
  intros H.
  assert (PyList.slice a L (R + 1) = []) as Hs.
  { unfold PyList.slice. destruct H as [->|[HL HR]].
    - now rewrite skipn_nil, firstn_nil.
    - unfold PyList.clip.
      destruct (Z.ltb_spec L 0); [lia|]. destruct (Z.ltb_spec (R + 1) 0); [lia|].
      replace (Z.to_nat (Z.min (R + 1) (PyList.len a) - Z.min L (PyList.len a)))
        with 0%nat by lia.
      reflexivity. }
  split.
  - rewrite range_sum_no_cache_eq, Hs. reflexivity.
  - intros cap. rewrite range_sum_with_cache_miss by reflexivity. rewrite Hs. reflexivity.
Qed.

Lemma empty_range_sums_to_zero_witness :
  range_sum_no_cache 3 1 [1; 2; 3; 4; 5] = (Ok 0, [1; 2; 3; 4; 5])
  /\ forall cap,
       fst (range_sum_with_cache 3 1 (mkStore [1; 2; 3; 4; 5] (LRUCache.mk cap []))) = Ok 0.
Proof.
  apply (empty_range_sums_to_zero [1; 2; 3; 4; 5] 3 1). right. lia.
Defined.

(** ** More on the splay tree *)

(** The two rotations undo each other and keep the in-order sequence; a
    rotation raises [AttributeError] exactly when the child it lifts is
    missing. *)
Theorem rotations_round_trip (x : tree) :
  (forall y, _right_rotate x = Ok y -> _left_rotate y = Ok x /\ inorder y = inorder x)
  /\ (forall y, _left_rotate x = Ok y -> _right_rotate y = Ok x /\ inorder y = inorder x)
  /\ (_right_rotate x = Raise AttributeError <->
      x = Nil \/ exists k v r, x = SplayNode k v Nil r)
  /\ (_left_rotate x = Raise AttributeError <->
      x = Nil \/ exists k v l, x = SplayNode k v l Nil).
Proof.
  repeat split.
  - destruct x as [|k v [|lk lv ll lr] r]; cbn in *; try discriminate.
    now injection H as <-.
  - destruct x as [|k v [|lk lv ll lr] r]; cbn in *; try discriminate.
    injection H as <-. cbn. now rewrite <- app_assoc.
  - destruct x as [|k v l [|xk xv rl rr]]; cbn in *; try discriminate.
    now injection H as <-.
  - destruct x as [|k v l [|xk xv rl rr]]; cbn in *; try discriminate.
    injection H as <-. cbn. now rewrite <- app_assoc.
  - destruct x as [|k v [|lk lv ll lr] r]; cbn; intros H; try discriminate; eauto.
  - intros [->|(k & v & r & ->)]; reflexivity.
  - destruct x as [|k v l [|xk xv rl rr]]; cbn; intros H; try discriminate; eauto.
  - intros [->|(k & v & l & ->)]; reflexivity.
Qed.

Lemma rotations_round_trip_witness :
  _left_rotate (SplayNode 1 10 Nil (SplayNode 2 20 Nil Nil))
    = Ok (SplayNode 2 20 (SplayNode 1 10 Nil Nil) Nil)
  /\ inorder (SplayNode 1 10 Nil (SplayNode 2 20 Nil Nil))
     = inorder (SplayNode 2 20 (SplayNode 1 10 Nil Nil) Nil).
Proof.
  apply (proj1 (rotations_round_trip (SplayNode 2 20 (SplayNode 1 10 Nil Nil) Nil))).
  reflexivity.
Defined.

Lemma search_miss (t : tree) (key : Z) :
  ~ In key (tree_keys t) ->
  exists t', search key t = (Ok None, t') /\ inorder t' = inorder t.
Proof.
  intros Hn. destruct (search_spec key t) as (t' & _ & Hi & _ & Hs).
  exists t'. split; [|exact Hi]. rewrite Hs.
  destruct t' as [|k v l r]; [reflexivity|].
  destruct (Z.eqb_spec k key) as [->|]; [|reflexivity].
  exfalso. apply Hn. unfold tree_keys. rewrite <- Hi. cbn.
  rewrite map_app. apply in_app_iff. right. now left.
Qed.

(** [search] for a key that no node holds returns [None], on any tree, and
    keeps the in-order sequence. *)
Theorem search_absent_key (t : tree) (key : Z) :
  ~ In key (tree_keys t) ->
  exists t', search key t = (Ok None, t') /\ inorder t' = inorder t.
Proof. apply search_miss. Qed.

Lemma search_absent_key_witness :
  exists t',
    search 4 (SplayNode 3 30 (SplayNode 1 10 Nil Nil) (SplayNode 5 50 Nil Nil))
      = (Ok None, t')
    /\ inorder t' = inorder (SplayNode 3 30 (SplayNode 1 10 Nil Nil) (SplayNode 5 50 Nil Nil)).
Proof.
  apply (search_absent_key (SplayNode 3 30 (SplayNode 1 10 Nil Nil) (SplayNode 5 50 Nil Nil)) 4).
  cbn. intuition discriminate.
Defined.

(** After a miss on a non-empty [SplayTree], the root is a neighbour of
    the key that was looked for: every key of its left subtree is below
    that key and every key of its right subtree is above it. *)
Theorem search_miss_root_is_neighbour (t : tree) (key : Z) :
  is_splay_tree t ->
  t <> Nil ->
  ~ In key (tree_keys t) ->
  exists k v l r,
    search key t = (Ok None, SplayNode k v l r)
    /\ k <> key
    /\ all_keys (fun x => x < key) l
    /\ all_keys (fun x => key < x) r.
Proof.
  intros Ht Hne Hn. apply is_splay_tree_bst in Ht.
  destruct (search_spec key t) as (t' & _ & Hi & Hsp & Hs).
  specialize (Hsp Ht). destruct t' as [|k v l r].
  - destruct t as [|k0 v0 l0 r0]; [congruence|]. cbn in Hi.
    destruct (inorder l0); discriminate.
  - exists k, v, l, r. destruct Hsp as [Hl Hr].
    assert (k <> key) as Hk.
    { intros ->. apply Hn. unfold tree_keys. rewrite <- Hi. cbn.
      rewrite map_app. apply in_app_iff. right. now left. }
    repeat split; auto. rewrite Hs.
    destruct (Z.eqb_spec k key); [contradiction | reflexivity].
Qed.

Lemma search_miss_root_is_neighbour_witness :
  exists k v l r,
    search 4 (SplayNode 5 50 (SplayNode 3 30 (SplayNode 1 10 Nil Nil) Nil) Nil)
      = (Ok None, SplayNode k v l r)
    /\ k <> 4
    /\ all_keys (fun x => x < 4) l
    /\ all_keys (fun x => 4 < x) r.
Proof.
  apply (search_miss_root_is_neighbour
           (SplayNode 5 50 (SplayNode 3 30 (SplayNode 1 10 Nil Nil) Nil) Nil) 4).
  - exists [Insert 1 10; Insert 3 30; Insert 5 50]. reflexivity.
  - discriminate.
  - cbn. intuition discriminate.
Defined.

Lemma insert_root key value t :
  exists l r, insert key value t = (Ok tt, SplayNode key value l r).
Proof.
  destruct t as [|k0 v0 l0 r0]; [do 2 eexists; reflexivity|].
  destruct (_splay_spec (SplayNode k0 v0 l0 r0) key) as (t1 & Hs & Hi & _).
  unfold insert, bind, get_state, splay_root. rewrite Hs.
  destruct t1 as [|k v l r].
  { cbn in Hi. destruct (inorder l0); discriminate. }
  destruct (Z.eqb_spec k key) as [->|]; [|destruct (key <? k)];
    do 2 eexists; reflexivity.
Qed.

Lemma search_at_root key value l r :
  search key (SplayNode key value l r) = (Ok (Some value), SplayNode key value l r).
Proof.
  unfold search, bind, splay_root, get_state. cbn [_splay].
  rewrite Z.eqb_refl. unfold ret. now rewrite Z.eqb_refl.
Qed.

(** What was inserted is found: on any tree, [insert(k, v)] returns
    normally with a node [(k, v)] at the root, and [search(k)] right after
    returns [v] and leaves the tree as it is. *)
Theorem insert_then_search (t : tree) (k v : Z) :
  exists l r,
    insert k v t = (Ok tt, SplayNode k v l r)
    /\ search k (SplayNode k v l r) = (Ok (Some v), SplayNode k v l r).
Proof.
  destruct (insert_root k v t) as (l & r & H).
  exists l, r. split; [exact H | apply search_at_root].
Qed.

(** Re-insertion: inserting again the key that was just inserted only
    replaces the value at the root; the shape of the tree and the number
    of nodes do not change, and with the same value the tree is the same. *)
Theorem insert_again_updates_root (t : tree) (k v : Z) :
  exists l r,
    insert k v t = (Ok tt, SplayNode k v l r)
    /\ forall v2, insert k v2 (SplayNode k v l r) = (Ok tt, SplayNode k v2 l r).
Proof.
  destruct (insert_root k v t) as (l & r & H).
  exists l, r. split; [exact H|]. intros v2.
  unfold insert, bind, get_state, splay_root, put_state. cbn [_splay].
  rewrite Z.eqb_refl. now rewrite Z.eqb_refl.
Qed.

Lemma filter_keys_below (k : Z) (l : list (Z * Z)) :
  Forall (fun x => x < k) (map fst l) ->
  filter (fun e => fst e <? k) l = l /\ filter (fun e => k <? fst e) l = [].
Proof.
  induction l as [|[x y] l IH]; cbn; intros H; [auto|].
  inversion H; subst. destruct (IH H3) as [-> ->].
  destruct (Z.ltb_spec x k); [|lia]. destruct (Z.ltb_spec k x); [lia|]. auto.
Qed.

Lemma filter_keys_above (k : Z) (l : list (Z * Z)) :
  Forall (fun x => k < x) (map fst l) ->
  filter (fun e => fst e <? k) l = [] /\ filter (fun e => k <? fst e) l = l.
Proof.
  induction l as [|[x y] l IH]; cbn; intros H; [auto|].
  inversion H; subst. destruct (IH H3) as [-> ->].
  destruct (Z.ltb_spec x k); [lia|]. destruct (Z.ltb_spec k x); [|lia]. auto.
Qed.

Lemma insert_contents_bst key value t :
  bst t ->
  exists t',
    insert key value t = (Ok tt, t')
    /\ inorder t' =
       filter (fun e => fst e <? key) (inorder t)
       ++ (key, value) :: filter (fun e => key <? fst e) (inorder t).
Proof.
  intros Hb0. destruct t as [|k0 v0 l0 r0]; [eexists; split; reflexivity|].
  destruct (_splay_spec (SplayNode k0 v0 l0 r0) key) as (t1 & Hs & Hi & Hb).
  specialize (Hb Hb0).
  unfold insert, bind, get_state, splay_root. rewrite Hs. rewrite <- Hi.
  pose proof (bst_inorder _ _ Hi Hb0) as Hb1.
  destruct t1 as [|k v l r].
  { cbn in Hi. destruct (inorder l0); discriminate. }
  destruct Hb as [Hl Hr]. cbn [bst] in Hb1. destruct Hb1 as (_ & _ & Hlk & Hrk).
  destruct (filter_keys_below key (inorder l) Hl) as [Fl1 Fl2].
  destruct (filter_keys_above key (inorder r) Hr) as [Fr1 Fr2].
  cbn [inorder]. rewrite !filter_app. cbn [filter fst]. rewrite Fl1, Fl2, Fr1, Fr2.
  destruct (Z.eqb_spec k key) as [->|Hne]; [|destruct (Z.ltb_spec key k)].
  - eexists. split; [reflexivity|]. rewrite Z.ltb_irrefl. cbn.
    now rewrite app_nil_r.
  - eexists. split; [reflexivity|].
    destruct (Z.ltb_spec k key); [lia|]. cbn. now rewrite app_nil_r.
  - eexists. split; [reflexivity|].
    destruct (Z.ltb_spec k key); [|lia]. destruct (Z.ltb_spec key k); [lia|].
    cbn. rewrite <- app_assoc. reflexivity.
Qed.

(** The contents after an insertion into a [SplayTree]: the in-order
    sequence is the old one with the pair [(k, v)] at its sorted position,
    in place of the pair of [k] if there was one.  Every other pair is
    kept, and the node count grows by one exactly when [k] is new. *)
Theorem insert_contents (t : tree) (k v : Z) :
  is_splay_tree t ->
  exists t',
    insert k v t = (Ok tt, t')
    /\ inorder t' =
       filter (fun e => fst e <? k) (inorder t)
       ++ (k, v) :: filter (fun e => k <? fst e) (inorder t).
Proof. intros Ht. apply insert_contents_bst. now apply is_splay_tree_bst. Qed.

Lemma insert_contents_witness :
  exists t',
    insert 3 33 (SplayNode 5 50 (SplayNode 3 30 (SplayNode 1 10 Nil Nil) Nil) Nil)
      = (Ok tt, t')
    /\ inorder t' =
       filter (fun e => fst e <? 3)
         (inorder (SplayNode 5 50 (SplayNode 3 30 (SplayNode 1 10 Nil Nil) Nil) Nil))
       ++ (3, 33) :: filter (fun e => 3 <? fst e)
         (inorder (SplayNode 5 50 (SplayNode 3 30 (SplayNode 1 10 Nil Nil) Nil) Nil)).
Proof.
  apply (insert_contents
           (SplayNode 5 50 (SplayNode 3 30 (SplayNode 1 10 Nil Nil) Nil) Nil) 3 33).
  exists [Insert 1 10; Insert 3 30; Insert 5 50]. reflexivity.
Defined.

Lemma sorted_keys_unique (l : list (Z * Z)) (k v v' : Z) :
  StronglySorted Z.lt (map fst l) -> In (k, v) l -> In (k, v') l -> v = v'.
Proof.
  induction l as [|[x y] l IH]; cbn; [tauto|].
  intros Hs H1 H2. inversion Hs as [|? ? Hs' Hf]; subst.
  rewrite Forall_forall in Hf.
  destruct H1 as [H1|H1], H2 as [H2|H2].
  - congruence.
  - injection H1 as -> ->. apply (in_map fst) in H2. apply Hf in H2. cbn in H2. lia.
  - injection H2 as -> ->. apply (in_map fst) in H1. apply Hf in H1. cbn in H1. lia.
  - now apply IH.
Qed.

Lemma search_lookup_bst key t r t' :
  bst t -> search key t = (Ok r, t') ->
  forall v, r = Some v <-> In (key, v) (inorder t).
Proof.
  intros Hb Hs v. split.
  - intros ->. now apply search_hit_in in Hs.
  - intros Hin.
    destruct (search_hit_bst key t Hb) as (v0 & l & r0 & Hs0 & Hin0).
    { unfold tree_keys. now apply (in_map fst) in Hin. }
    rewrite Hs0 in Hs. injection Hs as <- _. f_equal.
    apply bst_sorted in Hb. eapply sorted_keys_unique; eauto.
Qed.

(** Insertion does not disturb the other keys: on a [SplayTree], a search
    for a key other than the inserted one gives the same answer after the
    insertion as before it. *)
Theorem insert_keeps_other_keys (t : tree) (k v k' : Z) :
  is_splay_tree t ->
  k' <> k ->
  exists t1 r t2 t3,
    insert k v t = (Ok tt, t1)
    /\ search k' t1 = (Ok r, t2)
    /\ search k' t = (Ok r, t3).
Proof.
  intros Ht Hne. apply is_splay_tree_bst in Ht.
  destruct (insert_contents_bst k v t Ht) as (t1 & Hi & Hc).
  destruct (insert_spec k v t) as (t1' & Hi' & _ & Hb1).
  rewrite Hi in Hi'. injection Hi' as <-. specialize (Hb1 Ht).
  destruct (search_spec k' t1) as (t2 & _ & _ & _ & Hs1).
  destruct (search_spec k' t) as (t3 & _ & _ & _ & Hs).
  match type of Hs1 with _ = (Ok ?x, _) => remember x as r1 eqn:E1 end.
  match type of Hs with _ = (Ok ?x, _) => remember x as r eqn:E end.
  clear E1 E.
  pose proof (search_lookup_bst k' t1 _ _ Hb1 Hs1) as L1.
  pose proof (search_lookup_bst k' t _ _ Ht Hs) as L.
  assert (forall w, In (k', w) (inorder t1) <-> In (k', w) (inorder t)) as Hsame.
  { intros w. rewrite Hc, in_app_iff. cbn [In]. rewrite !filter_In. cbn [fst].
    destruct (Z.ltb_spec k' k), (Z.ltb_spec k k'); try lia; split; intros HH;
      intuition (try congruence; try discriminate). }
  exists t1, r, t2, t3. split; [exact Hi|]. split; [|exact Hs].
  rewrite Hs1. f_equal. f_equal.
  destruct r1 as [a|], r as [b|].
  - pose proof (proj1 (L1 a) eq_refl) as HH. apply Hsame, L in HH. congruence.
  - pose proof (proj1 (L1 a) eq_refl) as HH. apply Hsame, L in HH. congruence.
  - pose proof (proj1 (L b) eq_refl) as HH. apply Hsame, L1 in HH. congruence.
  - reflexivity.
Qed.

Lemma insert_keeps_other_keys_witness :
  exists t1 r t2 t3,
    insert 4 40 (SplayNode 5 50 (SplayNode 3 30 (SplayNode 1 10 Nil Nil) Nil) Nil)
      = (Ok tt, t1)
    /\ search 1 t1 = (Ok r, t2)
    /\ search 1 (SplayNode 5 50 (SplayNode 3 30 (SplayNode 1 10 Nil Nil) Nil) Nil)
       = (Ok r, t3).
Proof.
  apply (insert_keeps_other_keys
           (SplayNode 5 50 (SplayNode 3 30 (SplayNode 1 10 Nil Nil) Nil) Nil) 4 40 1).
  - exists [Insert 1 10; Insert 3 30; Insert 5 50]. reflexivity.
  - lia.
Defined.

(** ** More on the two Fibonacci functions *)

Lemma fib_loop_spec count : forall m,
  fib_loop count (fib m, fib (S m)) = (fib (m + count), fib (S (m + count))).
Proof.
  induction count as [|count IH]; intros m.
  - now rewrite Nat.add_0_r.
  - cbn [fib_loop fst snd].
    replace (fib m + fib (S m)) with (fib (S (S m))) by (cbn [fib]; lia).
    rewrite (IH (S m)). now rewrite Nat.add_succ_r.
Qed.

Lemma fibonacci_lru_fib n : 0 <= n -> fibonacci_lru n = fib (Z.to_nat n).
Proof.
  intros Hn. unfold fibonacci_lru. destruct (Z.ltb_spec n 2) as [H|H].
  - assert (n = 0 \/ n = 1) as [->| ->] by lia; reflexivity.
  - change (0, 1) with (fib 0, fib 1). rewrite fib_loop_spec.
    f_equal. lia.
Qed.

(** The iterative [fibonacci_lru] returns the [n]-th Fibonacci number for
    every [n >= 0], and its argument itself for every [n < 2], the
    negative ones included. *)
Theorem fibonacci_lru_correct (n : Z) :
  (0 <= n -> fibonacci_lru n = fib (Z.to_nat n))
  /\ (n < 2 -> fibonacci_lru n = n).
Proof.
  split; [apply fibonacci_lru_fib|].
  intros H. unfold fibonacci_lru. destruct (Z.ltb_spec n 2); [reflexivity | lia].
Qed.

Lemma fibonacci_lru_correct_witness :
  fibonacci_lru 30 = fib (Z.to_nat 30) /\ fibonacci_lru (-4) = -4.
Proof.
  split.
  - apply (proj1 (fibonacci_lru_correct 30)). lia.
  - apply (proj2 (fibonacci_lru_correct (-4))). lia.
Defined.

(** The recursion of [fibonacci_splay] needs no more than [max(1, n)]
    nested calls, whatever correct pairs the tree already holds. *)
Lemma fibonacci_splay_enough_depth depth : forall n t,
  0 <= n -> (1 <= depth)%nat -> (Z.to_nat n <= depth)%nat -> memo_ok t ->
  exists t', fibonacci_splay depth n t = (Ok (fib (Z.to_nat n)), t') /\ memo_ok t'.
Proof.
  induction depth as [|depth IH]; intros n t Hn Hd1 Hd Hm; [lia|].
  cbn [fibonacci_splay]. unfold bind at 1.
  destruct (search n t) as [[[v|]|e] t1] eqn:Hs.
  - apply search_hit_in in Hs as [Hin Hi].
    rewrite (Hm _ _ Hin Hn). exists t1. split; [reflexivity|].
    now apply (memo_ok_inorder t).
  - destruct (search_spec n t) as (t1' & _ & Hi & _ & Hs'). rewrite Hs in Hs'.
    injection Hs' as _ <-. pose proof (memo_ok_inorder t t1 Hi Hm) as Hm1.
    destruct (Z.ltb_spec n 2) as [Hlt|Hge].
    + unfold bind, ret. assert (n = fib (Z.to_nat n)) as Hfib.
      { assert (n = 0 \/ n = 1) as [->| ->] by lia; reflexivity. }
      destruct (memo_ok_insert n t1 Hn Hm1) as (t2 & Hi2 & Hm2).
      rewrite <- Hfib in Hi2 at 1. rewrite Hi2. exists t2. split; [|exact Hm2].
      now rewrite <- Hfib.
    + destruct (IH (n - 1) t1) as (t2 & H2 & Hm2); [lia | lia | lia | exact Hm1 |].
      destruct (IH (n - 2) t2) as (t3 & H3 & Hm3); [lia | lia | lia | exact Hm2 |].
      unfold bind, ret. rewrite H2, H3. rewrite <- (fib_step n Hge).
      destruct (memo_ok_insert n t3 Hn Hm3) as (t4 & Hi4 & Hm4).
      rewrite Hi4. exists t4. split; [reflexivity | exact Hm4].
  - destruct (search_spec n t) as (t1' & _ & _ & _ & Hs'). congruence.
Qed.

(** The two functions that [main] times compute the same numbers: for
    every [n >= 0], [fibonacci_splay] on a fresh tree, with [max(1, n)]
    nested calls available, returns what [fibonacci_lru] returns. *)
Theorem fibonacci_splay_agrees_with_lru (depth : nat) (n : Z) :
  0 <= n ->
  (1 <= depth)%nat ->
  (Z.to_nat n <= depth)%nat ->
  exists t', fibonacci_splay depth n reset_splay_tree = (Ok (fibonacci_lru n), t').
Proof.
  intros Hn Hd1 Hd. rewrite (fibonacci_lru_fib n Hn).
  destruct (fibonacci_splay_enough_depth depth n Nil Hn Hd1 Hd) as (t' & H & _).
  - intros k v [].
  - exists t'. exact H.
Qed.

Lemma fibonacci_splay_agrees_with_lru_witness :
  exists t', fibonacci_splay 12 12 reset_splay_tree = (Ok (fibonacci_lru 12), t').
Proof.
  apply (fibonacci_splay_agrees_with_lru 12 12); lia.
Defined.

(** On a fresh tree the recursion is as deep as [n]: with fewer than [n]
    nested calls available, [fibonacci_splay(n, tree)] ends in
    [RecursionError], and the tree is still empty. *)
Theorem fibonacci_splay_needs_depth (depth : nat) (n : Z) :
  (depth < Z.to_nat n)%nat ->
  fibonacci_splay depth n reset_splay_tree = (Raise RecursionError, Nil).
Proof.
  unfold reset_splay_tree. revert n.
  induction depth as [|depth IH]; intros n Hd; [reflexivity|].
  cbn [fibonacci_splay]. unfold bind at 1.
  change (search n Nil) with (@ret tree (option Z) None Nil). unfold ret at 1.
  destruct (Z.ltb_spec n 2); [lia|].
  unfold bind at 1 2. rewrite (IH (n - 1)) by lia. reflexivity.
Qed.

Lemma fibonacci_splay_needs_depth_witness :
  fibonacci_splay 7 8 reset_splay_tree = (Raise RecursionError, Nil).
Proof.
  apply (fibonacci_splay_needs_depth 7 8). cbn. lia.
Defined.

Lemma fibonacci_splay_root depth n t v t' :
  fibonacci_splay depth n t = (Ok v, t') -> exists l r, t' = SplayNode n v l r.
Proof.
  destruct depth as [|depth]; [discriminate|].
  cbn [fibonacci_splay]. unfold bind at 1.
  destruct (search_spec n t) as (t1 & _ & _ & _ & ->).
  destruct t1 as [|k w l r].
  - set (inner := if n <? 2 then _ else _). unfold bind at 1.
    destruct (inner Nil) as [[res|e] t2]; [|discriminate].
    unfold bind, ret. destruct (insert_root n res t2) as (l & r & ->).
    intros [= <- <-]. eauto.
  - destruct (Z.eqb_spec k n) as [->|Hne].
    + unfold ret. intros [= <- <-]. eauto.
    + set (inner := if n <? 2 then _ else _). unfold bind at 1.
      destruct (inner (SplayNode k w l r)) as [[res|e] t2]; [|discriminate].
      unfold bind, ret. destruct (insert_root n res t2) as (l' & r' & ->).
      intros [= <- <-]. eauto.
Qed.

(** Memoisation: whenever [fibonacci_splay(n, tree)] has returned a value,
    the tree has the pair of [n] and that value at its root, and calling
    again needs a single frame, returns the same value and leaves the tree
    as it is. *)
Theorem fibonacci_splay_second_call (depth : nat) (n : Z) (t : tree) (v : Z) (t' : tree) :
  fibonacci_splay depth n t = (Ok v, t') ->
  (exists l r, t' = SplayNode n v l r)
  /\ fibonacci_splay 1 n t' = (Ok v, t').
Proof.
  intros H. destruct (fibonacci_splay_root depth n t v t' H) as (l & r & ->).
  split; [eauto|]. cbn [fibonacci_splay]. unfold bind.
  now rewrite search_at_root.
Qed.

Lemma fibonacci_splay_second_call_witness :
  (exists l r, SplayNode 2 1 (SplayNode 1 1 (SplayNode 0 0 Nil Nil) Nil) Nil
               = SplayNode 2 1 l r)
  /\ fibonacci_splay 1 2 (SplayNode 2 1 (SplayNode 1 1 (SplayNode 0 0 Nil Nil) Nil) Nil)
     = (Ok 1, SplayNode 2 1 (SplayNode 1 1 (SplayNode 0 0 Nil Nil) Nil) Nil).
Proof.
  apply (fibonacci_splay_second_call 3 2 Nil 1
           (SplayNode 2 1 (SplayNode 1 1 (SplayNode 0 0 Nil Nil) Nil) Nil)).
  reflexivity.
Defined.

Lemma insert_absent_keeps key value t :
  ~ In key (tree_keys t) ->
  exists l r,
    insert key value t = (Ok tt, SplayNode key value l r)
    /\ forall e, In e (inorder t) -> In e (inorder (SplayNode key value l r)).
Proof.
  intros Habs. destruct t as [|k0 v0 l0 r0].
  { do 2 eexists. split; [reflexivity|]. intros e []. }
  destruct (_splay_spec (SplayNode k0 v0 l0 r0) key) as (t1 & Hs & Hi & _).
  unfold insert, bind, get_state, splay_root. rewrite Hs. rewrite <- Hi.
  unfold tree_keys in Habs. rewrite <- Hi in Habs.
  destruct t1 as [|k v l r].
  { cbn in Hi. destruct (inorder l0); discriminate. }
  destruct (Z.eqb_spec k key) as [->|Hne].
  { exfalso. apply Habs. cbn. rewrite map_app. apply in_app_iff. right. now left. }
  destruct (key <? k); do 2 eexists; (split; [reflexivity|]);
    intros e He; cbn in *; rewrite ?in_app_iff in *; cbn in *;
    rewrite ?in_app_iff; cbn; tauto.
Qed.

(** Below two the argument is its own result: for [n < 2], negative [n]
    included, on a tree that holds no node with key [n], one frame is
    enough and [fibonacci_splay] returns [n] and stores the pair [(n, n)]
    at the root, keeping every pair that was there. *)
Theorem fibonacci_splay_below_two (depth : nat) (n : Z) (t : tree) :
  n < 2 ->
  ~ In n (tree_keys t) ->
  exists l r,
    fibonacci_splay (S depth) n t = (Ok n, SplayNode n n l r)
    /\ forall e, In e (inorder t) -> In e (inorder (SplayNode n n l r)).
Proof.
  intros Hn Habs. cbn [fibonacci_splay]. unfold bind at 1.
  destruct (search_miss t n Habs) as (t1 & -> & Hi).
  destruct (Z.ltb_spec n 2); [|lia]. unfold bind, ret.
  destruct (insert_absent_keeps n n t1) as (l & r & Hins & Hkeep).
  { unfold tree_keys. now rewrite Hi. }
  rewrite Hins. exists l, r. split; [reflexivity|].
  intros e He. apply Hkeep. now rewrite Hi.
Qed.

Lemma fibonacci_splay_below_two_witness :
  exists l r,
    fibonacci_splay 1 (-3) (SplayNode 5 5 Nil Nil) = (Ok (-3), SplayNode (-3) (-3) l r)
    /\ forall e, In e (inorder (SplayNode 5 5 Nil Nil)) ->
                 In e (inorder (SplayNode (-3) (-3) l r)).
Proof.
  apply (fibonacci_splay_below_two 0 (-3) (SplayNode 5 5 Nil Nil)).
  - lia.
  - cbn. intuition discriminate.
Defined.

(** [fibonacci_splay] keeps the search-tree ordering: started on a tree
    whose keys are in order it leaves one, whether it returns or runs out
    of stack in the middle. *)
Theorem fibonacci_splay_keeps_order (depth : nat) : forall n t r t',
  bst t ->
  fibonacci_splay depth n t = (r, t') ->
  StronglySorted Z.lt (tree_keys t').
Proof.
  assert (forall d n t r t', bst t -> fibonacci_splay d n t = (r, t') -> bst t') as Hgen.
  { induction d as [|d IH]; intros n t r t' Hb.
    - cbn. unfold raise. now intros [= _ <-].
    - cbn [fibonacci_splay]. unfold bind at 1.
      destruct (search_spec n t) as (t1 & _ & Hi & _ & ->).
      pose proof (bst_inorder _ _ Hi Hb) as Hb1.
      set (o := match t1 with Nil => None | SplayNode _ _ _ _ => _ end).
      clearbody o. destruct o as [v|].
      { unfold ret. now intros [= _ <-]. }
      unfold bind at 1.
      destruct (Z.ltb_spec n 2).
      + unfold ret at 1. unfold bind, ret.
        destruct (insert_spec n n t1) as (t2 & -> & _ & Hb2). intros [= _ <-]. auto.
      + unfold bind at 1.
        destruct (fibonacci_splay d (n - 1) t1) as [[a|e] t2] eqn:E1;
          pose proof (IH _ _ _ _ Hb1 E1) as Hb2; [|now intros [= _ <-]].
        unfold bind at 1.
        destruct (fibonacci_splay d (n - 2) t2) as [[b|e] t3] eqn:E2;
          pose proof (IH _ _ _ _ Hb2 E2) as Hb3; [|now intros [= _ <-]].
        unfold ret at 1. unfold bind, ret.
        destruct (insert_spec n (a + b) t3) as (t4 & -> & _ & Hb4).
        intros [= _ <-]. auto. }
  intros n t r t' Hb H. apply bst_sorted. eapply Hgen; eauto.
Qed.

Lemma fibonacci_splay_keeps_order_witness :
  StronglySorted Z.lt (tree_keys (snd (fibonacci_splay 3 9 (SplayNode 4 3 Nil Nil)))).
Proof.
  apply (fibonacci_splay_keeps_order 3 9 (SplayNode 4 3 Nil Nil)
           (fst (fibonacci_splay 3 9 (SplayNode 4 3 Nil Nil)))).
  - cbn. repeat split; apply all_keys_nil.
  - reflexivity.
Defined.
